(** * glymur.tiff : Tiff2Jp2k.run, a shallow embedding

    The development follows [src/glymur/tiff.py].  Python integers are [Z]
    ([Z.div] and [Z.modulo] round towards minus infinity, as [//] and [%] do),
    numpy arrays are a shape together with nested lists of samples, and the
    calls into libtiff and into the JPEG 2000 writer are recorded in a trace
    of events, so that the order of reads and writes can be stated. *)

From Stdlib Require Import ZArith List Lia Bool String.
Import ListNotations.
Local Open Scope string_scope.
Local Open Scope list_scope.
Local Open Scope Z_scope.

(* ------------------------------------------------------------------ *)
(** ** Exceptions, results and the trace monad *)

Inductive Exn : Type :=
| NotImplementedError
| ZeroDivisionError
| ValueError.

Inductive Result (A : Type) : Type :=
| Ok (a : A)
| Raise (e : Exn).
Arguments Ok {A} a.
Arguments Raise {A} e.

(** A numpy array of rank 3: its shape (rows, columns, samples) and the
    samples, row by row, pixel by pixel. *)
Record ndarray : Type := mk_ndarray {
  nd_shape : Z * Z * Z;
  nd_data : list (list (list Z))
}.

(** What [run] does to the outside world, in the order it does it. *)
Inductive Event : Type :=
| EvIsTiled
| EvGetFieldDefaulted (tag : string)
| EvRGBAImageOK
| EvReadRGBAImageOriented
| EvJp2kData (image : ndarray)
| EvJp2kTiled (shape : Z * Z * Z) (tilesize : Z * Z)
| EvComputeTile (x y : Z)
| EvReadEncodedTile (tilenum : Z)
| EvTileWrite (idx : Z) (tile : ndarray)
| EvBreakpoint.

Definition Run (A : Type) : Type := list Event -> list Event * Result A.

Definition ret {A} (a : A) : Run A := fun tr => (tr, Ok a).

Definition bind {A B} (m : Run A) (k : A -> Run B) : Run B :=
  fun tr =>
    match m tr with
    | (tr', Ok a) => k a tr'
    | (tr', Raise e) => (tr', Raise e)
    end.

Definition raise {A} (e : Exn) : Run A := fun tr => (tr, Raise e).

Definition emit (ev : Event) : Run unit := fun tr => (tr ++ [ev], Ok tt).

Definition lift {A} (r : Result A) : Run A := fun tr => (tr, r).

(** [try: m except ValueError: h] *)
Definition try_except_ValueError {A} (m : Run A) (h : Run A) : Run A :=
  fun tr =>
    match m tr with
    | (tr', Raise ValueError) => h tr'
    | r => r
    end.

Declare Scope run_scope.
Delimit Scope run_scope with run.
Notation "x <- m ;; k" := (bind m (fun x => k))
  (at level 100, m at next level, right associativity) : run_scope.
Notation "m ;;; k" := (bind m (fun _ => k))
  (at level 100, right associativity) : run_scope.
Local Open Scope run_scope.

Definition rbind {A B} (r : Result A) (k : A -> Result B) : Result B :=
  match r with
  | Ok a => k a
  | Raise e => Raise e
  end.
Notation "x <-? r ;; k" := (rbind r (fun x => k))
  (at level 100, r at next level, right associativity) : run_scope.

(** [a and b], evaluated left to right, [b] only when [a] holds. *)
Definition andR (a b : Run bool) : Run bool :=
  x <- a ;; if x then b else ret false.
Infix "&&&" := andR (at level 40, left associativity) : run_scope.

(** The body of a [for] loop threaded through the loop's variables. *)
Fixpoint for_each {B S} (l : list B) (body : B -> S -> Run S) (s : S) : Run S :=
  match l with
  | [] => ret s
  | b :: l' => s' <- body b s ;; for_each l' body s'
  end.

(* ------------------------------------------------------------------ *)
(** ** Python integers *)

Definition py_mod (a b : Z) : Result Z :=
  if b =? 0 then Raise ZeroDivisionError else Ok (a mod b).

Definition py_floordiv (a b : Z) : Result Z :=
  if b =? 0 then Raise ZeroDivisionError else Ok (a / b).

(** [range(start, stop, step)]: as many items as CPython computes, the
    i-th being [start + i * step]. *)
Definition range_len (start stop step : Z) : Z :=
  if 0 <? step then
    if start <? stop then (stop - start - 1) / step + 1 else 0
  else
    if stop <? start then (start - stop - 1) / (- step) + 1 else 0.

Definition py_range (start stop step : Z) : Result (list Z) :=
  if step =? 0 then Raise ValueError
  else Ok (map (fun i => start + Z.of_nat i * step)
               (seq 0 (Z.to_nat (range_len start stop step)))).

(** [enumerate] over [n] items yields the indices 0 .. n-1. *)
Definition indices (n : Z) : list Z := map Z.of_nat (seq 0 (Z.to_nat n)).

(* ------------------------------------------------------------------ *)
(** ** numpy arrays *)

Definition np_zeros (shape : Z * Z * Z) : Result ndarray :=
  let '(h, w, s) := shape in
  if (h <? 0) || (w <? 0) || (s <? 0) then Raise ValueError
  else Ok {| nd_shape := shape;
             nd_data := repeat (repeat (repeat 0 (Z.to_nat s)) (Z.to_nat w))
                               (Z.to_nat h) |}.

(** [slice(start, stop)] applied to an axis of length [n]: the adjusted
    start and the number of items. *)
Definition adjust_index (i n : Z) : Z :=
  if i <? 0 then Z.max (i + n) 0 else Z.min i n.

Definition slice_start (sl : Z * Z) (n : Z) : Z := adjust_index (fst sl) n.

Definition slice_len (sl : Z * Z) (n : Z) : Z :=
  Z.max 0 (adjust_index (snd sl) n - adjust_index (fst sl) n).

Definition cut {A} (start len : Z) (l : list A) : list A :=
  firstn (Z.to_nat len) (skipn (Z.to_nat start) l).

(** [a[rows, cols, :]] *)
Definition nd_get (a : ndarray) (rows cols : Z * Z) : ndarray :=
  let '(h, w, s) := nd_shape a in
  {| nd_shape := (slice_len rows h, slice_len cols w, s);
     nd_data := map (cut (slice_start cols w) (slice_len cols w))
                    (cut (slice_start rows h) (slice_len rows h) (nd_data a)) |}.

(** Broadcasting of one axis of the value to the length of the target. *)
Definition broadcastable (n m : Z) : bool := (n =? m) || (n =? 1).

Definition stretch {A} (n m : Z) (l : list A) : list A :=
  if n =? m then l
  else match l with
       | x :: _ => repeat x (Z.to_nat m)
       | [] => []
       end.

(** Replace the items [start, start + length v) of [l] by [v]. *)
Definition splice {A} (start : Z) (v : list A) (l : list A) : list A :=
  firstn (Z.to_nat start) l ++ v ++ skipn (Z.to_nat start + List.length v)%nat l.

(** [a[rows, cols, :] = v], which raises ValueError when the shape of [v]
    cannot be broadcast to the shape of the target. *)
Definition nd_set (a : ndarray) (rows cols : Z * Z) (v : ndarray)
  : Result ndarray :=
  let '(h, w, s) := nd_shape a in
  let '(vh, vw, vs) := nd_shape v in
  let th := slice_len rows h in
  let tw := slice_len cols w in
  if broadcastable vh th && broadcastable vw tw && broadcastable vs s then
    let vrows :=
      stretch vh th (map (fun r => stretch vw tw (map (stretch vs s) r))
                         (nd_data v)) in
    let old := cut (slice_start rows h) th (nd_data a) in
    let new := map (fun p => splice (slice_start cols w) (fst p) (snd p))
                   (combine vrows old) in
    Ok {| nd_shape := nd_shape a;
          nd_data := splice (slice_start rows h) new (nd_data a) |}
  else Raise ValueError.

(** [image[:, :, :3]] *)
Definition first3 (a : ndarray) : ndarray :=
  let '(h, w, s) := nd_shape a in
  {| nd_shape := (h, w, slice_len (0, 3) s);
     nd_data := map (map (cut 0 (slice_len (0, 3) s))) (nd_data a) |}.

(* ------------------------------------------------------------------ *)
(** ** The collaborators: libtiff and the JPEG 2000 writer *)

(** Modelled from the spec: [libtiff.SampleFormat] is declared in
    glymur/lib/tiff.py, which is not part of the sources at hand; the spec's
    ImageGeometry lists the sample formats unsigned-integer, signed-integer
    and IEEE-float. *)
Inductive SampleFormat : Type := UINT | INT | IEEEFP.

Definition SampleFormat_eqb (a b : SampleFormat) : bool :=
  match a, b with
  | UINT, UINT | INT, INT | IEEEFP, IEEEFP => true
  | _, _ => false
  end.

(** An open TIFF handle, as far as [run] looks at it: the tags it asks for,
    the two predicates, the whole image as [readRGBAImageOriented] decodes it
    and the samples of every tile as [readEncodedTile] decodes them. *)
Record Tiff : Type := mk_Tiff {
  tiled : bool;
  ImageWidth : Z;
  ImageLength : Z;
  SamplesPerPixel : Z;
  SampleFormatTag : SampleFormat;
  BitsPerSample : Z;
  TileWidth : Z;
  TileLength : Z;
  rgba_ok : bool;
  rgba_image : ndarray;
  encoded_tile : Z -> list (list (list Z))
}.

(** [Tiff2Jp2k.__init__]: the file names play no part in what follows. *)
Record Tiff2Jp2k : Type := mk_Tiff2Jp2k {
  tilesize : option (Z * Z)
}.

Definition ceil_div (a b : Z) : Z := (a + b - 1) / b.

Section Libtiff.
Variable fp : Tiff.

Definition isTiled : Run bool := emit EvIsTiled ;;; ret (tiled fp).

Definition getFieldDefaulted {A} (tag : string) (value : A) : Run A :=
  emit (EvGetFieldDefaulted tag) ;;; ret value.

Definition RGBAImageOK : Run bool := emit EvRGBAImageOK ;;; ret (rgba_ok fp).

Definition readRGBAImageOriented : Run ndarray :=
  emit EvReadRGBAImageOriented ;;; ret (rgba_image fp).

(** Modelled from the spec: [libtiff.computeTile] is not part of the sources
    at hand.  The spec's TileCoordinate gives the row-major linear index
    row * colCount + col with colCount = ceil(width / tileWidth), and the
    reader returns the tile enclosing a pixel coordinate. *)
Definition tile_index (x y : Z) : Z :=
  y / TileLength fp * ceil_div (ImageWidth fp) (TileWidth fp)
  + x / TileWidth fp.

(** [libtiff.computeTile(fp, x, y, 0, 0)] *)
Definition computeTile (x y : Z) : Run Z :=
  emit (EvComputeTile x y) ;;; ret (tile_index x y).

(** Modelled from the spec: [libtiff.readEncodedTile] is not part of the
    sources at hand.  It decodes the tile of the given index into the
    buffer it is handed, whose shape stays what it was. *)
Definition readEncodedTile (tilenum : Z) (buf : ndarray) : Run ndarray :=
  emit (EvReadEncodedTile tilenum) ;;;
  ret {| nd_shape := nd_shape buf; nd_data := encoded_tile fp tilenum |}.
End Libtiff.

(** [Jp2k(filename, data=image)] *)
Definition Jp2k_data (image : ndarray) : Run unit := emit (EvJp2kData image).

(** [Jp2k(filename, shape=..., tilesize=...)] *)
Definition Jp2k_tiled (shape : Z * Z * Z) (ts : Z * Z) : Run (Z * Z * Z * (Z * Z)) :=
  emit (EvJp2kTiled shape ts) ;;; ret (shape, ts).

(** Modelled from the spec: [Jp2k.get_tilewriters] is not part of the sources
    at hand.  The destination takes one buffer per destination tile, in
    row-major order, and a grid has ceil(height / tileHeight) rows and
    ceil(width / tileWidth) columns. *)
Definition get_tilewriters (jp2 : Z * Z * Z * (Z * Z)) : list Z :=
  let '((h, w, _), (jth, jtw)) := jp2 in
  indices (ceil_div h jth * ceil_div w jtw).

(** [tilewriter[:] = tile] *)
Definition tilewriter_set (idx : Z) (tile : ndarray) : Run unit :=
  emit (EvTileWrite idx tile).

(* ------------------------------------------------------------------ *)
(** ** Tiff2Jp2k.run *)

Inductive Strategy : Type := WholeImage | IdentityCopy | Regrid.

(** The geometry read at the top of [run] (lines 38-44). *)
Record Geometry : Type := mk_Geometry {
  imagewidth : Z;
  imageheight : Z;
  spp : Z;
  sf : SampleFormat;
  bps : Z;
  tw : Z;
  th : Z
}.

Definition geometry_of (fp : Tiff) : Geometry :=
  {| imagewidth := ImageWidth fp; imageheight := ImageLength fp;
     spp := SamplesPerPixel fp; sf := SampleFormatTag fp;
     bps := BitsPerSample fp; tw := TileWidth fp; th := TileLength fp |}.

Definition read_geometry (fp : Tiff) : Run Geometry :=
  imagewidth <- getFieldDefaulted "ImageWidth" (ImageWidth fp) ;;
  imageheight <- getFieldDefaulted "ImageLength" (ImageLength fp) ;;
  spp <- getFieldDefaulted "SamplesPerPixel" (SamplesPerPixel fp) ;;
  sf <- getFieldDefaulted "SampleFormat" (SampleFormatTag fp) ;;
  bps <- getFieldDefaulted "BitsPerSample" (BitsPerSample fp) ;;
  tw <- getFieldDefaulted "TileWidth" (TileWidth fp) ;;
  th <- getFieldDefaulted "TileLength" (TileLength fp) ;;
  ret (mk_Geometry imagewidth imageheight spp sf bps tw th).

(** [(a % b) == 0] *)
Definition divides_evenly (a b : Z) : Run bool :=
  r <- lift (py_mod a b) ;; ret (r =? 0).

(** The conditions shared by the two [elif]s (lines 59-62 and 78-81). *)
Definition evenly_tiled_uint8 (g : Geometry) : Run bool :=
  divides_evenly (imagewidth g) (tw g)
  &&& divides_evenly (imageheight g) (th g)
  &&& ret (bps g =? 8)
  &&& ret (SampleFormat_eqb (sf g) UINT).

(** The [if]/[elif]/[elif] chain of lines 46-85: the first condition that
    holds decides, and when none does there is no [else]. *)
Definition select_strategy (self : Tiff2Jp2k) (fp : Tiff) (g : Geometry)
  : Run (option Strategy) :=
  c1 <- (ret (tw g >? imagewidth g)
         &&& ret (th g >? imageheight g)
         &&& RGBAImageOK fp) ;;
  if c1 then ret (Some WholeImage) else
  c2 <- (evenly_tiled_uint8 g
         &&& ret (match tilesize self with None => true | Some _ => false end)) ;;
  if c2 then ret (Some IdentityCopy) else
  c3 <- (evenly_tiled_uint8 g
         &&& ret (match tilesize self with None => false | Some _ => true end)
         &&& match tilesize self with
             | Some (jth, _) => divides_evenly (imageheight g) jth
             | None => ret false
             end
         &&& match tilesize self with
             | Some (_, jtw) => divides_evenly (imagewidth g) jtw
             | None => ret false
             end) ;;
  if c3 then ret (Some Regrid) else ret None.

(** Lines 51-56. *)
Definition whole_image (fp : Tiff) (g : Geometry) : Run unit :=
  image <- readRGBAImageOriented fp ;;
  let image := if spp g <? 4 then first3 image else image in
  Jp2k_data image.

(** Lines 66-75. *)
Definition identity_copy (fp : Tiff) (g : Geometry) : Run unit :=
  tile <- lift (np_zeros (th g, tw g, spp g)) ;;
  jp2 <- Jp2k_tiled (imageheight g, imagewidth g, spp g) (th g, tw g) ;;
  for_each (get_tilewriters jp2)
    (fun idx tile =>
       tile <- readEncodedTile fp idx tile ;;
       tilewriter_set idx tile ;;;
       ret tile)
    tile ;;;
  ret tt.

(** How one TIFF tile fits into the JP2K tile being filled: the section the
    two share, in image coordinates, and the same section in the coordinates
    of either tile (lines 128-152). *)
Record Fit : Type := mk_Fit {
  ulr : Z;
  llr : Z;
  ulc : Z;
  urc : Z;
  j2k_rows : Z * Z;
  j2k_cols : Z * Z;
  tiff_rows : Z * Z;
  tiff_cols : Z * Z
}.

Definition fit_tile (g : Geometry) (jth jtw num_tiff_tile_cols julr julc : Z)
  (tilenum : Z) : Result Fit :=
  tiff_tile_row <-? py_floordiv tilenum num_tiff_tile_cols ;;
  tiff_tile_col <-? py_mod tilenum num_tiff_tile_cols ;;
  let tulr := tiff_tile_row * th g in
  let tulc := tiff_tile_col * tw g in
  let ulr := Z.max julr tulr in
  let llr := Z.min (julr + jth) (tulr + th g) in
  let ulc := Z.max julc tulc in
  let urc := Z.min (julc + jtw) (tulc + tw g) in
  jr0 <-? py_mod ulr jth ;;
  jr1 <-? py_mod (llr - 1) jth ;;
  jc0 <-? py_mod ulc jtw ;;
  jc1 <-? py_mod (urc - 1) jtw ;;
  tr0 <-? py_mod ulr (th g) ;;
  tr1 <-? py_mod (llr - 1) (th g) ;;
  tc0 <-? py_mod ulc (tw g) ;;
  tc1 <-? py_mod (urc - 1) (tw g) ;;
  Ok {| ulr := ulr; llr := llr; ulc := ulc; urc := urc;
        j2k_rows := (jr0, jr1 + 1); j2k_cols := (jc0, jc1 + 1);
        tiff_rows := (tr0, tr1 + 1); tiff_cols := (tc0, tc1 + 1) |}.

(** The rows and columns the two [for] loops of lines 119-120 step
    through. *)
Definition scan_rows (g : Geometry) (jth julr : Z) : Result (list Z) :=
  py_range julr (Z.min (julr + jth) (imageheight g)) (th g).

Definition scan_cols (g : Geometry) (jtw julc : Z) : Result (list Z) :=
  py_range julc (Z.min (julc + jtw) (imagewidth g)) (tw g).

(** Lines 121-158: one TIFF tile read and copied into the JP2K tile. *)
Definition copy_tile (fp : Tiff) (g : Geometry)
  (jth jtw num_tiff_tile_cols julr julc : Z) (y x : Z)
  (bufs : ndarray * ndarray) : Run (ndarray * ndarray) :=
  let '(jp2k_tile, tiff_tile) := bufs in
  tilenum <- computeTile fp x y ;;
  tiff_tile <- readEncodedTile fp tilenum tiff_tile ;;
  f <- lift (fit_tile g jth jtw num_tiff_tile_cols julr julc tilenum) ;;
  jp2k_tile <- try_except_ValueError
                 (lift (nd_set jp2k_tile (j2k_rows f) (j2k_cols f)
                          (nd_get tiff_tile (tiff_rows f) (tiff_cols f))))
                 (emit EvBreakpoint ;;; raise ValueError) ;;
  ret (jp2k_tile, tiff_tile).

(** Lines 109-160: one JP2K tile filled and written. *)
Definition fill_tile (fp : Tiff) (g : Geometry)
  (jth jtw num_jp2k_tile_cols num_tiff_tile_cols : Z) (idx : Z)
  (bufs : ndarray * ndarray) : Run (ndarray * ndarray) :=
  jp2k_tile_row <- lift (py_floordiv idx num_jp2k_tile_cols) ;;
  jp2k_tile_col <- lift (py_mod idx num_jp2k_tile_cols) ;;
  let julr := jp2k_tile_row * jth in
  let julc := jp2k_tile_col * jtw in
  ys <- lift (scan_rows g jth julr) ;;
  bufs <- for_each ys
            (fun y bufs =>
               xs <- lift (scan_cols g jtw julc) ;;
               for_each xs
                 (copy_tile fp g jth jtw num_tiff_tile_cols julr julc y) bufs)
            bufs ;;
  tilewriter_set idx (fst bufs) ;;;
  ret bufs.

(** Lines 87-160. *)
Definition regrid (fp : Tiff) (g : Geometry) (ts : Z * Z) : Run unit :=
  let '(jth, jtw) := ts in
  tile <- lift (np_zeros (th g, tw g, spp g)) ;;
  jp2 <- Jp2k_tiled (imageheight g, imagewidth g, spp g) ts ;;
  num_jp2k_tile_rows <- lift (py_floordiv (imageheight g) jth) ;;
  num_jp2k_tile_cols <- lift (py_floordiv (imagewidth g) jtw) ;;
  num_tiff_tile_rows <- lift (py_floordiv (imageheight g) (th g)) ;;
  num_tiff_tile_cols <- lift (py_floordiv (imagewidth g) (tw g)) ;;
  jp2k_tile <- lift (np_zeros (jth, jtw, spp g)) ;;
  tiff_tile <- lift (np_zeros (th g, tw g, spp g)) ;;
  for_each (get_tilewriters jp2)
    (fill_tile fp g jth jtw num_jp2k_tile_cols num_tiff_tile_cols)
    (jp2k_tile, tiff_tile) ;;;
  ret tt.

(** [run] (lines 33-160). *)
Definition run (self : Tiff2Jp2k) (fp : Tiff) : Run unit :=
  t <- isTiled fp ;;
  if negb t then raise NotImplementedError else
  g <- read_geometry fp ;;
  s <- select_strategy self fp g ;;
  match s, tilesize self with
  | Some WholeImage, _ => whole_image fp g
  | Some IdentityCopy, _ => identity_copy fp g
  | Some Regrid, Some ts => regrid fp g ts
  | _, _ => ret tt
  end.

(* ------------------------------------------------------------------ *)
(** ** Images, tiles and what the destination received *)

Definition Image : Type := list (list (list Z)).

(** Modelled from the spec: the TIFF reader is not part of the sources at
    hand.  By the spec's TileCoordinate, the tile of linear index
    row * colCount + col has its origin at pixel
    (row * tileHeight, col * tileWidth) and is tileHeight by tileWidth. *)
Definition tile_of_image (img : Image) (th tw ncols : Z) (n : Z) : Image :=
  map (cut (n mod ncols * tw) tw) (cut (n / ncols * th) th img).

Definition tiff_of_image (img : Image) (h w spp th tw : Z) : Tiff :=
  {| tiled := true;
     ImageWidth := w; ImageLength := h; SamplesPerPixel := spp;
     SampleFormatTag := UINT; BitsPerSample := 8;
     TileWidth := tw; TileLength := th;
     rgba_ok := false;
     rgba_image := {| nd_shape := (h, w, 4); nd_data := [] |};
     encoded_tile := tile_of_image img th tw (ceil_div w tw) |}.

(** The tiles handed to the tile writers, in the order they were handed. *)
Fixpoint tiles_written (tr : list Event) : list (Z * ndarray) :=
  match tr with
  | [] => []
  | EvTileWrite idx tile :: tr' => (idx, tile) :: tiles_written tr'
  | _ :: tr' => tiles_written tr'
  end.

(** The sample vector at (row, col) of an array. *)
Definition pixel_at (d : Image) (r c : Z) : list Z :=
  nth (Z.to_nat c) (nth (Z.to_nat r) d []) [].

(** The destination read back tile by tile and put together in image
    coordinates: pixel (r, c) lies in the tile of row r / jth and column
    c / jtw, at (r mod jth, c mod jtw). *)
Definition reassemble (h w jth jtw : Z) (tiles : list (Z * ndarray)) : Image :=
  map (fun r =>
         map (fun c =>
                let idx := r / jth * ceil_div w jtw + c / jtw in
                match find (fun p => fst p =? idx) tiles with
                | Some (_, t) => pixel_at (nd_data t) (r mod jth) (c mod jtw)
                | None => []
                end)
             (indices w))
      (indices h).

(** A test image with one sample per pixel, numbered in reading order. *)
Definition numbered_image (h w : Z) : Image :=
  map (fun r => map (fun c => [r * w + c]) (indices w)) (indices h).

Definition regrid_roundtrip (h w th tw jth jtw : Z) : bool :=
  let img := numbered_image h w in
  let '(tr, r) := run {| tilesize := Some (jth, jtw) |}
                      (tiff_of_image img h w 1 th tw) [] in
  match r with
  | Ok _ => if list_eq_dec (list_eq_dec (list_eq_dec Z.eq_dec))
                 (reassemble h w jth jtw (tiles_written tr)) img
            then true else false
  | Raise _ => false
  end.


(* ------------------------------------------------------------------ *)
(** ** Observations on a trace *)

Definition geometry_events : list Event :=
  [EvGetFieldDefaulted "ImageWidth"; EvGetFieldDefaulted "ImageLength";
   EvGetFieldDefaulted "SamplesPerPixel"; EvGetFieldDefaulted "SampleFormat";
   EvGetFieldDefaulted "BitsPerSample"; EvGetFieldDefaulted "TileWidth";
   EvGetFieldDefaulted "TileLength"].

(** Events that create a destination or hand it samples. *)
Definition is_destination_event (ev : Event) : bool :=
  match ev with
  | EvJp2kData _ | EvJp2kTiled _ _ | EvTileWrite _ _ => true
  | _ => false
  end.

Definition is_geometry_event (ev : Event) : bool :=
  match ev with
  | EvGetFieldDefaulted _ => true
  | _ => false
  end.

(* ------------------------------------------------------------------ *)
(** ** Sample inputs *)

Definition striped_tiff : Tiff :=
  {| tiled := false;
     ImageWidth := 512; ImageLength := 512; SamplesPerPixel := 3;
     SampleFormatTag := UINT; BitsPerSample := 8;
     TileWidth := 256; TileLength := 256;
     rgba_ok := true;
     rgba_image := {| nd_shape := (512, 512, 4); nd_data := [] |};
     encoded_tile := fun _ => [] |}.

(* ------------------------------------------------------------------ *)
(** ** The three guards, as the spec words them *)

(** The source tile is larger than the image in either axis and the source
    can be read whole with alpha. *)
Definition whole_image_guard (fp : Tiff) (g : Geometry) : Prop :=
  tw g > imagewidth g /\ th g > imageheight g /\ rgba_ok fp = true.

(** Width and height are evenly divided by the source tile, the samples are
    8-bit unsigned integers. *)
Definition evenly_tiled_uint8_spec (g : Geometry) : Prop :=
  (tw g | imagewidth g) /\ (th g | imageheight g)
  /\ bps g = 8 /\ sf g = UINT.

Definition identity_copy_guard (self : Tiff2Jp2k) (g : Geometry) : Prop :=
  evenly_tiled_uint8_spec g /\ tilesize self = None.

Definition regrid_guard (self : Tiff2Jp2k) (g : Geometry) : Prop :=
  evenly_tiled_uint8_spec g
  /\ exists jth jtw, tilesize self = Some (jth, jtw)
                     /\ (jth | imageheight g) /\ (jtw | imagewidth g).

Definition selected (self : Tiff2Jp2k) (fp : Tiff) (g : Geometry)
  (tr : list Event) : Result (option Strategy) :=
  snd (select_strategy self fp g tr).

Definition tiff_512_256 : Tiff :=
  {| tiled := true;
     ImageWidth := 512; ImageLength := 512; SamplesPerPixel := 3;
     SampleFormatTag := UINT; BitsPerSample := 8;
     TileWidth := 256; TileLength := 256;
     rgba_ok := true;
     rgba_image := {| nd_shape := (512, 512, 4); nd_data := [] |};
     encoded_tile := fun _ => [] |}.

(** A tiled 512 x 512 source with 256 x 256 tiles and 16-bit samples. *)
Definition tiff_16bit : Tiff :=
  {| tiled := true;
     ImageWidth := 512; ImageLength := 512; SamplesPerPixel := 3;
     SampleFormatTag := UINT; BitsPerSample := 16;
     TileWidth := 256; TileLength := 256;
     rgba_ok := true;
     rgba_image := {| nd_shape := (512, 512, 4); nd_data := [] |};
     encoded_tile := fun _ => [] |}.

(* ------------------------------------------------------------------ *)
(** ** Whole-image passthrough: what is emitted *)

Definition channels (a : ndarray) : Z := snd (nd_shape a).

(** The images handed to [Jp2k(filename, data=...)]. *)
Fixpoint images_emitted (tr : list Event) : list ndarray :=
  match tr with
  | [] => []
  | EvJp2kData image :: tr' => image :: images_emitted tr'
  | _ :: tr' => images_emitted tr'
  end.

(** Channel truncation as the spec words it: under the whole-image
    strategy, three channels out when there are four samples or more, the
    read buffer unchanged when there are three or fewer. *)
Definition channel_truncation_as_specified : Prop :=
  forall (self : Tiff2Jp2k) (fp : Tiff),
    tiled fp = true ->
    whole_image_guard fp (geometry_of fp) ->
    (4 <= SamplesPerPixel fp ->
     forall image, In image (images_emitted (fst (run self fp []))) ->
                   channels image = 3)
    /\ (SamplesPerPixel fp <= 3 ->
        images_emitted (fst (run self fp [])) = [rgba_image fp]).

(** A 1 x 1 RGBA source: the tile is larger than the image. *)
Definition tiff_rgba_1x1 : Tiff :=
  {| tiled := true;
     ImageWidth := 1; ImageLength := 1; SamplesPerPixel := 4;
     SampleFormatTag := UINT; BitsPerSample := 8;
     TileWidth := 16; TileLength := 16;
     rgba_ok := true;
     rgba_image := {| nd_shape := (1, 1, 4); nd_data := [[[10; 20; 30; 255]]] |};
     encoded_tile := fun _ => [] |}.

(** A 1 x 1 RGB source, read as RGBA. *)
Definition tiff_rgb_1x1 : Tiff :=
  {| tiled := true;
     ImageWidth := 1; ImageLength := 1; SamplesPerPixel := 3;
     SampleFormatTag := UINT; BitsPerSample := 8;
     TileWidth := 16; TileLength := 16;
     rgba_ok := true;
     rgba_image := {| nd_shape := (1, 1, 4); nd_data := [[[10; 20; 30; 255]]] |};
     encoded_tile := fun _ => [] |}.

(* ------------------------------------------------------------------ *)
(** ** Identity tile copy: what is read and written *)

(** Source tile [i] as the reader decodes it into the tile buffer. *)
Definition source_tile (fp : Tiff) (i : Z) : ndarray :=
  {| nd_shape := (TileLength fp, TileWidth fp, SamplesPerPixel fp);
     nd_data := encoded_tile fp i |}.

Definition identity_copy_events (fp : Tiff) (i : Z) : list Event :=
  [EvReadEncodedTile i; EvTileWrite i (source_tile fp i)].

(** A 4 x 4 source in 2 x 2 tiles, one sample per pixel. *)
Definition tiff_4x4 : Tiff := tiff_of_image (numbered_image 4 4) 4 4 1 2 2.

(* ------------------------------------------------------------------ *)
(** ** Regridding: the geometry of one copy step *)

(** The preconditions of the regridding strategy on the two grids: every
    dimension positive, the image evenly divided by the source tile and by
    the destination tile. *)
Definition regrid_ready (g : Geometry) (jth jtw : Z) : Prop :=
  0 < imagewidth g /\ 0 < imageheight g
  /\ 0 < tw g /\ 0 < th g /\ 0 < jth /\ 0 < jtw
  /\ (tw g | imagewidth g) /\ (th g | imageheight g)
  /\ (jth | imageheight g) /\ (jtw | imagewidth g).

(** The upper left pixel of JP2K tile [idx] (lines 109-116). *)
Definition julr_of (g : Geometry) (jth jtw idx : Z) : Z :=
  idx / (imagewidth g / jtw) * jth.

Definition julc_of (g : Geometry) (jth jtw idx : Z) : Z :=
  idx mod (imagewidth g / jtw) * jtw.

(** [(y, x)] is one of the positions scanned while JP2K tile [idx] is
    filled. *)
Definition scanned (g : Geometry) (jth jtw idx : Z) (y x : Z) : Prop :=
  In idx (get_tilewriters ((imageheight g, imagewidth g, spp g), (jth, jtw)))
  /\ (exists ys, scan_rows g jth (julr_of g jth jtw idx) = Ok ys /\ In y ys)
  /\ (exists xs, scan_cols g jtw (julc_of g jth jtw idx) = Ok xs /\ In x xs).

(** The shape of [a[rows, cols, :]]. *)
Definition slice_shape (a : ndarray) (rows cols : Z * Z) : Z * Z * Z :=
  nd_shape (nd_get a rows cols).

(** The translation of the spec's step 4: a range of absolute coordinates
    taken to the frame of a tile by subtracting the tile's origin. *)
Definition translate_spec (lo hi origin : Z) : Z * Z :=
  (lo - origin, hi - origin).

(** The origin of the TIFF tile [tilenum], as lines 128-134 compute it. *)
Definition tulr_of (g : Geometry) (tilenum : Z) : Z :=
  tilenum / (imagewidth g / tw g) * th g.

Definition tulc_of (g : Geometry) (tilenum : Z) : Z :=
  tilenum mod (imagewidth g / tw g) * tw g.

(** A 96 x 32 source in 48 x 16 tiles, one sample per pixel. *)
Definition tiff_96x32 : Tiff := tiff_of_image (numbered_image 96 32) 96 32 1 48 16.

(** The items of a range that was computed without error. *)
Definition range_items (r : Result (list Z)) : list Z :=
  match r with
  | Ok l => l
  | Raise _ => []
  end.

(** What one copy step asks of the source. *)
Definition copy_events (fp : Tiff) (y x : Z) : list Event :=
  [EvComputeTile x y; EvReadEncodedTile (tile_index fp x y)].

(** What filling JP2K tile [idx] asks of the source, in scan order. *)
Definition fill_events (fp : Tiff) (jth jtw idx : Z) : list Event :=
  let g := geometry_of fp in
  flat_map
    (fun y => flat_map (copy_events fp y)
                (range_items (scan_cols g jtw (julc_of g jth jtw idx))))
    (range_items (scan_rows g jth (julr_of g jth jtw idx))).

(** The TIFF tiles read, in the order they were read. *)
Fixpoint tiles_read (tr : list Event) : list Z :=
  match tr with
  | [] => []
  | EvReadEncodedTile n :: tr' => n :: tiles_read tr'
  | _ :: tr' => tiles_read tr'
  end.

(** The two scratch buffers have the shapes they were allocated with. *)
Definition buffers_shaped (g : Geometry) (jth jtw : Z)
  (bufs : ndarray * ndarray) : Prop :=
  nd_shape (fst bufs) = (jth, jtw, spp g)
  /\ nd_shape (snd bufs) = (th g, tw g, spp g).

(** The conditions under which [run] regrids: a tiled source, the guard of
    lines 77-85 with the requested tile size, and dimensions that are
    positive (a sample count that is not negative). *)
Definition regrid_preconditions (self : Tiff2Jp2k) (fp : Tiff) (jth jtw : Z)
  : Prop :=
  tiled fp = true
  /\ tilesize self = Some (jth, jtw)
  /\ regrid_ready (geometry_of fp) jth jtw
  /\ BitsPerSample fp = 8 /\ SampleFormatTag fp = UINT
  /\ 0 <= SamplesPerPixel fp.

(* ------------------------------------------------------------------ *)
(** ** Regridding: footprints and coverage *)

(** The TIFF tile [tilenum] and the JP2K tile [idx] share at least one
    pixel. *)
Definition footprints_intersect (g : Geometry) (jth jtw idx tilenum : Z) : bool :=
  (Z.max (julr_of g jth jtw idx) (tulr_of g tilenum)
   <? Z.min (julr_of g jth jtw idx + jth) (tulr_of g tilenum + th g))
  && (Z.max (julc_of g jth jtw idx) (tulc_of g tilenum)
      <? Z.min (julc_of g jth jtw idx + jtw) (tulc_of g tilenum + tw g)).

(** The sections computed while JP2K tile [idx] is filled, in scan order. *)
Definition sections (fp : Tiff) (jth jtw idx : Z) : list Fit :=
  let g := geometry_of fp in
  flat_map
    (fun y =>
       flat_map
         (fun x =>
            match fit_tile g jth jtw (imagewidth g / tw g)
                    (julr_of g jth jtw idx) (julc_of g jth jtw idx)
                    (tile_index fp x y) with
            | Ok f => [f]
            | Raise _ => []
            end)
         (range_items (scan_cols g jtw (julc_of g jth jtw idx))))
    (range_items (scan_rows g jth (julr_of g jth jtw idx))).

(** Pixel (r, c) of the image lies in one of the sections. *)
Definition covered (fs : list Fit) (r c : Z) : bool :=
  existsb (fun f => (ulr f <=? r) && (r <? llr f)
                    && (ulc f <=? c) && (c <? urc f)) fs.

(** Scratch buffers of the shapes lines 104-105 allocate, for one sample
    per pixel. *)
Definition scratch (jth jtw th tw : Z) : ndarray * ndarray :=
  ({| nd_shape := (jth, jtw, 1); nd_data := [] |},
   {| nd_shape := (th, tw, 1); nd_data := [] |}).

(** One tile size is a whole multiple of the other. *)
Definition aligned (a b : Z) : Prop := (a | b) \/ (b | a).

(* ------------------------------------------------------------------ *)
(** ** What the destination sees *)

(** The calls made on the JPEG 2000 side, without the samples: the image
    handed over whole, the tiled destination created, a tile written. *)
Inductive DestinationCall : Type :=
| WholeImageWritten (shape : Z * Z * Z)
| TiledCreated (shape : Z * Z * Z) (tilesize : Z * Z)
| TileWritten (idx : Z) (shape : Z * Z * Z).

Definition destination_call (ev : Event) : list DestinationCall :=
  match ev with
  | EvJp2kData image => [WholeImageWritten (nd_shape image)]
  | EvJp2kTiled shape ts => [TiledCreated shape ts]
  | EvTileWrite idx tile => [TileWritten idx (nd_shape tile)]
  | _ => []
  end.

Definition destination_calls (tr : list Event) : list DestinationCall :=
  flat_map destination_call tr.

(** What is asked of the source while tiles are copied: the pixel handed to
    [computeTile], the tile handed to [readEncodedTile]. *)
Inductive SourceCall : Type :=
| TileComputed (x y : Z)
| TileRead (tilenum : Z).

Definition source_call (ev : Event) : list SourceCall :=
  match ev with
  | EvComputeTile x y => [TileComputed x y]
  | EvReadEncodedTile n => [TileRead n]
  | _ => []
  end.

Definition source_calls (tr : list Event) : list SourceCall :=
  flat_map source_call tr.

(** A source call stays inside the image and inside its grid of tiles. *)
Definition source_call_in_range (fp : Tiff) (c : SourceCall) : Prop :=
  match c with
  | TileComputed x y => 0 <= x < ImageWidth fp /\ 0 <= y < ImageLength fp
  | TileRead n =>
      0 <= n < ImageLength fp / TileLength fp * (ImageWidth fp / TileWidth fp)
  end.

(* ------------------------------------------------------------------ *)
(** ** Samples that fill a shape *)

(** The rows of pixels are as many as the shape says, each as long as the
    shape says. *)
Definition filled (h w : Z) (d : Image) : Prop :=
  List.length d = Z.to_nat h
  /\ forall row, In row d -> List.length row = Z.to_nat w.

(** The block of the image that JP2K tile [idx] stands for is what
    [tile_of_image] gives for the JP2K grid; the source hands out the blocks
    of the image for the TIFF grid. *)
Definition source_holds (fp : Tiff) (img : Image) : Prop :=
  filled (ImageLength fp) (ImageWidth fp) img
  /\ forall n, encoded_tile fp n
               = tile_of_image img (TileLength fp) (TileWidth fp)
                   (ImageWidth fp / TileWidth fp) n.

(* ------------------------------------------------------------------ *)
(** ** Regridding: what the JP2K tile buffer holds *)

(** Pixel (r, c) of the image lies in the section computed at the scanned
    position (y, x) of JP2K tile [idx]. *)
Definition in_section (fp : Tiff) (jth jtw idx y x r c : Z) : Prop :=
  let g := geometry_of fp in
  match fit_tile g jth jtw (imagewidth g / tw g) (julr_of g jth jtw idx)
          (julc_of g jth jtw idx) (tile_index fp x y) with
  | Ok f => covered [f] r c = true
  | Raise _ => False
  end.

(** The JP2K tile buffer holds the pixels of the image wherever the
    positions processed so far have copied a section. *)
Definition copied_so_far (fp : Tiff) (img : Image) (jth jtw idx : Z)
  (processed : Z -> Z -> Prop) (bufs : ndarray * ndarray) : Prop :=
  let g := geometry_of fp in
  buffers_shaped g jth jtw bufs
  /\ filled jth jtw (nd_data (fst bufs))
  /\ forall y x r c,
       processed y x ->
       in_section fp jth jtw idx y x r c ->
       julr_of g jth jtw idx <= r < julr_of g jth jtw idx + jth ->
       julc_of g jth jtw idx <= c < julc_of g jth jtw idx + jtw ->
       pixel_at (nd_data (fst bufs)) (r - julr_of g jth jtw idx)
         (c - julc_of g jth jtw idx)
       = pixel_at img r c.

(* ------------------------------------------------------------------ *)
(** ** The opening of [run]: the tiled check and the geometry *)

Lemma read_geometry_eq (fp : Tiff) (tr : list Event) :
  read_geometry fp tr = (tr ++ geometry_events, Ok (geometry_of fp)).
Proof.
  unfold read_geometry, getFieldDefaulted, bind, emit, ret, geometry_events.
  cbn. rewrite <- !app_assoc. reflexivity.
Qed.

Lemma run_tiled_eq (self : Tiff2Jp2k) (fp : Tiff) (tr : list Event) :
  tiled fp = true ->
  run self fp tr =
  (s <- select_strategy self fp (geometry_of fp) ;;
   match s, tilesize self with
   | Some WholeImage, _ => whole_image fp (geometry_of fp)
   | Some IdentityCopy, _ => identity_copy fp (geometry_of fp)
   | Some Regrid, Some ts => regrid fp (geometry_of fp) ts
   | _, _ => ret tt
   end) ((tr ++ [EvIsTiled]) ++ geometry_events).
Proof.
  intros Ht. unfold run, isTiled. unfold bind at 1 2. unfold emit, ret at 1.
  rewrite Ht. cbn [negb]. unfold bind at 1. rewrite read_geometry_eq.
  reflexivity.
Qed.

(** C9: a source that is not tiled makes [run] raise NotImplementedError
    right after the [isTiled] call: nothing is added to the trace but that
    call, so no geometry field has been read and no destination has been
    created or written. *)
Theorem run_striped_rejected (self : Tiff2Jp2k) (fp : Tiff) (tr : list Event) :
  tiled fp = false ->
  run self fp tr = (tr ++ [EvIsTiled], Raise NotImplementedError)
  /\ existsb is_geometry_event (fst (run self fp [])) = false
  /\ existsb is_destination_event (fst (run self fp [])) = false.
Proof.
  intros Ht.
  assert (E : forall t, run self fp t = (t ++ [EvIsTiled], Raise NotImplementedError)).
  { intros t. unfold run, isTiled, bind, emit, ret, raise. rewrite Ht. reflexivity. }
  split; [apply E|]. rewrite E. split; reflexivity.
Qed.

Lemma run_striped_rejected_witness :
  run {| tilesize := None |} striped_tiff [] = ([EvIsTiled], Raise NotImplementedError)
  /\ existsb is_geometry_event (fst (run {| tilesize := None |} striped_tiff [])) = false
  /\ existsb is_destination_event (fst (run {| tilesize := None |} striped_tiff [])) = false.
Proof.
  apply (run_striped_rejected {| tilesize := None |} striped_tiff []).
  reflexivity.
Defined.

(* ------------------------------------------------------------------ *)
(** ** Strategy selection *)

Lemma divides_evenly_eq (a b : Z) (tr : list Event) :
  divides_evenly a b tr =
  (tr, if b =? 0 then Raise ZeroDivisionError else Ok (a mod b =? 0)).
Proof.
  unfold divides_evenly, bind, lift, py_mod, ret.
  destruct (b =? 0); reflexivity.
Qed.

Lemma divide_iff_mod (a b : Z) :
  0 < a -> ((b | a) <-> b <> 0 /\ a mod b = 0).
Proof.
  intros Ha. split.
  - intros Hd. assert (b <> 0).
    { intros ->. destruct Hd as [k Hk]. lia. }
    split; [assumption|]. apply Z.mod_divide; assumption.
  - intros [Hb Hm]. apply Z.mod_divide; assumption.
Qed.

Lemma SampleFormat_eqb_eq (a b : SampleFormat) :
  SampleFormat_eqb a b = true <-> a = b.
Proof. destruct a, b; cbn; split; congruence. Qed.

Lemma andR_eq (a b : Run bool) (tr tr' : list Event) (r : Result bool) :
  a tr = (tr', r) ->
  (a &&& b) tr = match r with
                 | Ok true => b tr'
                 | Ok false => (tr', Ok false)
                 | Raise e => (tr', Raise e)
                 end.
Proof.
  intros E. unfold andR, bind. rewrite E.
  destruct r as [[|]|]; reflexivity.
Qed.

(** The shared conditions evaluate without touching the trace; they hold
    exactly when the spec's wording of them does. *)
Lemma evenly_tiled_uint8_eq (g : Geometry) (tr : list Event) :
  0 < imagewidth g -> 0 < imageheight g ->
  exists r, evenly_tiled_uint8 g tr = (tr, r)
            /\ (r = Ok true <-> evenly_tiled_uint8_spec g)
            /\ (r = Ok true \/ r = Ok false \/ r = Raise ZeroDivisionError).
Proof.
  intros Hw Hh. unfold evenly_tiled_uint8_spec.
  pose proof (divide_iff_mod _ (tw g) Hw) as Dw.
  pose proof (divide_iff_mod _ (th g) Hh) as Dh.
  pose proof (SampleFormat_eqb_eq (sf g) UINT) as Es.
  pose proof (Z.eqb_spec (tw g) 0) as S1.
  pose proof (Z.eqb_spec (imagewidth g mod tw g) 0) as S2.
  pose proof (Z.eqb_spec (th g) 0) as S3.
  pose proof (Z.eqb_spec (imageheight g mod th g) 0) as S4.
  pose proof (Z.eqb_spec (bps g) 8) as S5.
  unfold evenly_tiled_uint8, andR, divides_evenly, lift, py_mod.
  unfold bind, ret.
  destruct S1, S2, S3, S4, S5, (SampleFormat_eqb (sf g) UINT);
    (eexists; split; [reflexivity|]; split; [|auto];
     split; [try discriminate; intros _; intuition idtac
            | try reflexivity; intros (? & ? & ? & ?); exfalso;
              intuition congruence]).
Qed.

Lemma whole_image_guard_eq (fp : Tiff) (g : Geometry) (tr : list Event) :
  exists c tr', (ret (tw g >? imagewidth g) &&& ret (th g >? imageheight g)
                 &&& RGBAImageOK fp) tr = (tr', Ok c)
                /\ (c = true <-> whole_image_guard fp g).
Proof.
  unfold andR, RGBAImageOK, emit, whole_image_guard. unfold bind, ret.
  rewrite !Z.gtb_ltb.
  destruct (Z.ltb_spec (imagewidth g) (tw g)), (Z.ltb_spec (imageheight g) (th g));
    do 2 eexists; (split; [reflexivity|]);
    try (split; [discriminate | intros; exfalso; lia]).
  intuition lia.
Qed.

Lemma select_strategy_eq (self : Tiff2Jp2k) (fp : Tiff) (g : Geometry)
  (tr : list Event) :
  0 < imagewidth g -> 0 < imageheight g ->
  exists c1 e tr',
    (c1 = true <-> whole_image_guard fp g)
    /\ (e = Ok true <-> evenly_tiled_uint8_spec g)
    /\ (e = Ok true \/ e = Ok false \/ e = Raise ZeroDivisionError)
    /\ select_strategy self fp g tr =
       (tr',
        if c1 then Ok (Some WholeImage) else
        match e with
        | Raise x => Raise x
        | Ok false => Ok None
        | Ok true =>
            match tilesize self with
            | None => Ok (Some IdentityCopy)
            | Some (jth, jtw) =>
                if jth =? 0 then Raise ZeroDivisionError
                else if negb (imageheight g mod jth =? 0) then Ok None
                else if jtw =? 0 then Raise ZeroDivisionError
                else if imagewidth g mod jtw =? 0 then Ok (Some Regrid)
                else Ok None
            end
        end).
Proof.
  intros Hw Hh.
  destruct (whole_image_guard_eq fp g tr) as (c1 & tr' & E1 & H1).
  destruct (evenly_tiled_uint8_eq g tr' Hw Hh) as (e & Ee & He & Hc).
  exists c1, e, tr'. repeat (split; [assumption|]).
  unfold select_strategy. unfold bind at 1. rewrite E1.
  destruct c1; [reflexivity|].
  unfold bind at 1. rewrite (andR_eq _ _ _ _ _ Ee).
  destruct Hc as [-> | [-> | ->]]; [| |reflexivity].
  - destruct (tilesize self) as [[jth jtw]|]; [|reflexivity].
    unfold ret at 1. cbv iota beta. unfold bind.
    assert (X1 : (evenly_tiled_uint8 g &&& ret true) tr' = (tr', Ok true))
      by (rewrite (andR_eq _ _ _ _ _ Ee); reflexivity).
    assert (X2 : (evenly_tiled_uint8 g &&& ret true
                  &&& divides_evenly (imageheight g) jth) tr'
                 = (tr', if jth =? 0 then Raise ZeroDivisionError
                         else Ok (imageheight g mod jth =? 0)))
      by (rewrite (andR_eq _ _ _ _ _ X1); apply divides_evenly_eq).
    rewrite (andR_eq _ _ _ _ _ X2).
    destruct (jth =? 0); [reflexivity|].
    destruct (imageheight g mod jth =? 0); [|reflexivity]. cbn [negb].
    rewrite divides_evenly_eq.
    destruct (jtw =? 0); [reflexivity|].
    destruct (imagewidth g mod jtw =? 0); reflexivity.
  - cbv iota beta. unfold ret at 1. cbv iota beta. unfold bind.
    match goal with
    | |- context [(evenly_tiled_uint8 g &&& ?a &&& ?b &&& ?c) tr'] =>
        assert (X1 : (evenly_tiled_uint8 g &&& a) tr' = (tr', Ok false))
          by (rewrite (andR_eq _ _ _ _ _ Ee); reflexivity);
        assert (X2 : (evenly_tiled_uint8 g &&& a &&& b) tr' = (tr', Ok false))
          by (rewrite (andR_eq _ _ _ _ _ X1); reflexivity);
        rewrite (andR_eq _ _ _ _ _ X2)
    end.
    reflexivity.
Qed.

(** C6: the choice among the three strategies is made by the first guard
    that holds: whole-image passthrough exactly when the source tile is
    larger than the image in both axes and the whole-image read is possible;
    otherwise identity tile copy exactly when the image is evenly tiled,
    8-bit unsigned, and no destination tile size was asked for; otherwise
    regridding exactly when, in addition, a destination tile size was asked
    for and evenly divides the image. *)
Theorem select_strategy_first_match (self : Tiff2Jp2k) (fp : Tiff)
  (g : Geometry) (tr : list Event) :
  0 < imagewidth g -> 0 < imageheight g ->
  (selected self fp g tr = Ok (Some WholeImage) <-> whole_image_guard fp g)
  /\ (selected self fp g tr = Ok (Some IdentityCopy)
      <-> ~ whole_image_guard fp g /\ identity_copy_guard self g)
  /\ (selected self fp g tr = Ok (Some Regrid)
      <-> ~ whole_image_guard fp g /\ ~ identity_copy_guard self g
          /\ regrid_guard self g).
Proof.
  intros Hw Hh.
  destruct (select_strategy_eq self fp g tr Hw Hh)
    as (c1 & e & tr' & H1 & He & Hc & E).
  unfold selected. rewrite E. cbn [snd].
  unfold identity_copy_guard, regrid_guard.
  destruct c1.
  { assert (G : whole_image_guard fp g) by (apply H1; reflexivity).
    intuition (try congruence). }
  assert (G : ~ whole_image_guard fp g)
    by (intros G; apply H1 in G; discriminate).
  destruct Hc as [-> | [-> | ->]].
  2,3: assert (~ evenly_tiled_uint8_spec g)
         by (intros X; apply He in X; discriminate);
       intuition (try congruence).
  assert (Ev : evenly_tiled_uint8_spec g) by (apply He; reflexivity).
  destruct (tilesize self) as [[jth jtw]|] eqn:Ets.
  2:{ assert (~ exists a b : Z, @None (Z * Z) = Some (a, b)
                     /\ (a | imageheight g) /\ (b | imagewidth g))
        by (intros (? & ? & X & _); discriminate).
      intuition (try congruence). }
  pose proof (divide_iff_mod _ jth Hh) as Dh.
  pose proof (divide_iff_mod _ jtw Hw) as Dw.
  assert (R : (exists a b, Some (jth, jtw) = Some (a, b)
                           /\ (a | imageheight g) /\ (b | imagewidth g))
              <-> (jth | imageheight g) /\ (jtw | imagewidth g)).
  { split.
    - intros (a & b & X & Y). inversion X; subst. exact Y.
    - intros Y. exists jth, jtw. split; [reflexivity|exact Y]. }
  destruct (Z.eqb_spec jth 0), (Z.eqb_spec (imageheight g mod jth) 0),
    (Z.eqb_spec jtw 0), (Z.eqb_spec (imagewidth g mod jtw) 0); cbn [negb];
    rewrite R; intuition (try congruence).
Qed.

Lemma select_strategy_first_match_witness :
  (selected {| tilesize := Some (128, 128) |} tiff_512_256
     (geometry_of tiff_512_256) [] = Ok (Some WholeImage)
   <-> whole_image_guard tiff_512_256 (geometry_of tiff_512_256))
  /\ (selected {| tilesize := Some (128, 128) |} tiff_512_256
        (geometry_of tiff_512_256) [] = Ok (Some IdentityCopy)
      <-> ~ whole_image_guard tiff_512_256 (geometry_of tiff_512_256)
          /\ identity_copy_guard {| tilesize := Some (128, 128) |}
               (geometry_of tiff_512_256))
  /\ (selected {| tilesize := Some (128, 128) |} tiff_512_256
        (geometry_of tiff_512_256) [] = Ok (Some Regrid)
      <-> ~ whole_image_guard tiff_512_256 (geometry_of tiff_512_256)
          /\ ~ identity_copy_guard {| tilesize := Some (128, 128) |}
                 (geometry_of tiff_512_256)
          /\ regrid_guard {| tilesize := Some (128, 128) |}
               (geometry_of tiff_512_256)).
Proof.
  apply (select_strategy_first_match {| tilesize := Some (128, 128) |}
           tiff_512_256 (geometry_of tiff_512_256) []);
    cbn; lia.
Defined.

(* ------------------------------------------------------------------ *)
(** ** No guard holds *)

Lemma existsb_app_false {A} (f : A -> bool) (l1 l2 : list A) :
  existsb f l1 = false -> existsb f l2 = false -> existsb f (l1 ++ l2) = false.
Proof. intros H1 H2. rewrite existsb_app, H1, H2. reflexivity. Qed.

(** When none of the three guards holds, [run] falls off the end of the
    [if]/[elif] chain: it returns, and the destination was never touched. *)
Lemma run_no_strategy_returns (self : Tiff2Jp2k) (fp : Tiff) :
  tiled fp = true ->
  selected self fp (geometry_of fp) ([EvIsTiled] ++ geometry_events) = Ok None ->
  snd (run self fp []) = Ok tt
  /\ existsb is_destination_event (fst (run self fp [])) = false.
Proof.
  intros Ht Hs. rewrite (run_tiled_eq self fp [] Ht). cbn [app].
  unfold selected in Hs. cbn [app] in Hs. unfold bind.
  destruct (select_strategy self fp (geometry_of fp) _) as [tr' r] eqn:E.
  cbn [snd] in Hs. subst r. cbn [ret fst snd]. split; [reflexivity|].
  revert E. unfold select_strategy, evenly_tiled_uint8, divides_evenly, andR,
    RGBAImageOK, emit, lift. unfold bind, ret.
  repeat match goal with
         | |- context [py_mod ?a ?b] => destruct (py_mod a b)
         | |- context [if ?c then _ else _] => destruct c
         | |- context [match tilesize self with _ => _ end] =>
             destruct (tilesize self) as [[? ?]|]
         end;
    intros E; inversion E; subst; reflexivity.
Qed.

(** C4: at a tiled source with 16-bit samples no guard holds, and [run]
    returns normally after reading the geometry: no exception is raised, no
    destination is created, nothing is written.  The spec asks for an error
    here. *)
Theorem run_unsupported_returns_silently :
  run {| tilesize := None |} tiff_16bit []
  = ([EvIsTiled] ++ geometry_events, Ok tt)
  /\ selected {| tilesize := None |} tiff_16bit (geometry_of tiff_16bit) []
     = Ok None
  /\ existsb is_destination_event (fst (run {| tilesize := None |} tiff_16bit []))
     = false.
Proof. repeat split. Qed.

(* ------------------------------------------------------------------ *)
(** ** Whole-image passthrough *)

Lemma whole_image_eq (fp : Tiff) (g : Geometry) (tr : list Event) :
  whole_image fp g tr =
  (tr ++ [EvReadRGBAImageOriented;
          EvJp2kData (if spp g <? 4 then first3 (rgba_image fp)
                      else rgba_image fp)], Ok tt).
Proof.
  unfold whole_image, readRGBAImageOriented, Jp2k_data, bind, emit, ret.
  rewrite <- app_assoc. reflexivity.
Qed.

Lemma select_whole_image (self : Tiff2Jp2k) (fp : Tiff) (g : Geometry)
  (tr : list Event) :
  whole_image_guard fp g ->
  select_strategy self fp g tr = (tr ++ [EvRGBAImageOK], Ok (Some WholeImage)).
Proof.
  intros (H1 & H2 & H3). unfold select_strategy, andR, RGBAImageOK, emit.
  unfold bind, ret. rewrite !Z.gtb_ltb.
  rewrite (proj2 (Z.ltb_lt _ _)) by lia.
  rewrite (proj2 (Z.ltb_lt _ _)) by lia.
  rewrite H3. reflexivity.
Qed.

Lemma run_whole_image (self : Tiff2Jp2k) (fp : Tiff) :
  tiled fp = true ->
  whole_image_guard fp (geometry_of fp) ->
  run self fp [] =
  ([EvIsTiled] ++ geometry_events
   ++ [EvRGBAImageOK; EvReadRGBAImageOriented;
       EvJp2kData (if SamplesPerPixel fp <? 4 then first3 (rgba_image fp)
                   else rgba_image fp)], Ok tt).
Proof.
  intros Ht Hg. rewrite (run_tiled_eq self fp [] Ht). unfold bind.
  rewrite (select_whole_image self fp _ _ Hg). rewrite whole_image_eq.
  reflexivity.
Qed.

Lemma first3_data (a : ndarray) :
  3 <= channels a ->
  channels (first3 a) = 3
  /\ nd_data (first3 a) = map (map (firstn 3)) (nd_data a).
Proof.
  unfold channels, first3. destruct a as [[[h w] s] d]. cbn [nd_shape nd_data snd].
  intros Hs.
  assert (E : slice_len (0, 3) s = 3).
  { unfold slice_len, adjust_index. cbn [fst snd]. cbn. lia. }
  rewrite E. split; reflexivity.
Qed.

(** C3, as the code has it: under the whole-image strategy a source with
    fewer than four samples per pixel has its read buffer cut to the first
    three channels before it is emitted, and a source with four samples or
    more has the read buffer emitted with all its channels. *)
Theorem whole_image_channel_truncation (self : Tiff2Jp2k) (fp : Tiff) :
  tiled fp = true ->
  whole_image_guard fp (geometry_of fp) ->
  3 <= channels (rgba_image fp) ->
  (SamplesPerPixel fp <= 3 ->
   exists image, images_emitted (fst (run self fp [])) = [image]
                 /\ channels image = 3
                 /\ nd_data image = map (map (firstn 3)) (nd_data (rgba_image fp)))
  /\ (4 <= SamplesPerPixel fp ->
      images_emitted (fst (run self fp [])) = [rgba_image fp]).
Proof.
  intros Ht Hg Hc. rewrite (run_whole_image self fp Ht Hg). cbn [fst].
  split; intros Hs.
  - rewrite (proj2 (Z.ltb_lt _ _)) by lia.
    exists (first3 (rgba_image fp)). split; [reflexivity|].
    apply first3_data; assumption.
  - rewrite (proj2 (Z.ltb_ge _ _)) by lia. reflexivity.
Qed.

Lemma whole_image_channel_truncation_witness :
  (exists image,
      images_emitted (fst (run {| tilesize := None |} tiff_rgb_1x1 [])) = [image]
      /\ channels image = 3
      /\ nd_data image = map (map (firstn 3)) (nd_data (rgba_image tiff_rgb_1x1)))
  /\ images_emitted (fst (run {| tilesize := None |} tiff_rgba_1x1 []))
     = [rgba_image tiff_rgba_1x1].
Proof.
  split.
  - apply (whole_image_channel_truncation {| tilesize := None |} tiff_rgb_1x1);
      [reflexivity | unfold whole_image_guard; cbn; repeat split; lia
      | cbn; lia | cbn; lia].
  - apply (whole_image_channel_truncation {| tilesize := None |} tiff_rgba_1x1);
      [reflexivity | unfold whole_image_guard; cbn; repeat split; lia
      | cbn; lia | cbn; lia].
Defined.

(** C3, as the spec words it, fails: a 1 x 1 RGBA source (four samples per
    pixel) is emitted with four channels, not three. *)
Lemma channel_truncation_counterexample : ~ channel_truncation_as_specified.
Proof.
  intros H.
  destruct (H {| tilesize := None |} tiff_rgba_1x1) as [H4 _];
    [reflexivity | unfold whole_image_guard; cbn; repeat split; lia |].
  specialize (H4 ltac:(cbn; lia) (rgba_image tiff_rgba_1x1)).
  cbn in H4. specialize (H4 (or_introl eq_refl)). discriminate.
Qed.

(* ------------------------------------------------------------------ *)
(** ** Loops *)

(** A loop whose body always succeeds, keeps an invariant of the loop
    variables and adds events that depend on the item only. *)
Lemma for_each_events {B S} (I : S -> Prop) (evs : B -> list Event)
  (body : B -> S -> Run S) (l : list B) :
  (forall b s tr, In b l -> I s ->
                  exists s', body b s tr = (tr ++ evs b, Ok s') /\ I s') ->
  forall s tr, I s ->
               exists s', for_each l body s tr = (tr ++ flat_map evs l, Ok s')
                          /\ I s'.
Proof.
  induction l as [|b l IH]; intros Hb s tr Hs.
  - exists s. cbn. rewrite app_nil_r. split; [reflexivity|assumption].
  - destruct (Hb b s tr (or_introl eq_refl) Hs) as (s1 & E1 & H1).
    destruct (IH (fun b' s' tr' Hin => Hb b' s' tr' (or_intror Hin)) s1
                 (tr ++ evs b) H1) as (s2 & E2 & H2).
    exists s2. split; [|assumption].
    cbn [for_each flat_map]. unfold bind. rewrite E1, E2, <- app_assoc.
    reflexivity.
Qed.

(** A loop whose body always succeeds and keeps an invariant of the loop
    variables and of the trace. *)
Lemma for_each_invariant {B S} (J : S -> list Event -> Prop)
  (body : B -> S -> Run S) (l : list B) :
  (forall b s tr, In b l -> J s tr ->
                  exists s' tr', body b s tr = (tr', Ok s') /\ J s' tr') ->
  forall s tr, J s tr ->
               exists s' tr', for_each l body s tr = (tr', Ok s') /\ J s' tr'.
Proof.
  induction l as [|b l IH]; intros Hb s tr Hs.
  - exists s, tr. split; [reflexivity|assumption].
  - destruct (Hb b s tr (or_introl eq_refl) Hs) as (s1 & tr1 & E1 & H1).
    destruct (IH (fun b' s' tr' Hin => Hb b' s' tr' (or_intror Hin)) s1 tr1 H1)
      as (s2 & tr2 & E2 & H2).
    exists s2, tr2. split; [|assumption].
    cbn [for_each]. unfold bind. rewrite E1, E2. reflexivity.
Qed.

Lemma tiles_written_app (t1 t2 : list Event) :
  tiles_written (t1 ++ t2) = tiles_written t1 ++ tiles_written t2.
Proof.
  induction t1 as [|ev t1 IH]; [reflexivity|].
  destruct ev; cbn; rewrite ?IH; reflexivity.
Qed.

Lemma ceil_div_exact (a b : Z) : 0 < b -> (b | a) -> ceil_div a b = a / b.
Proof.
  intros Hb [k ->]. unfold ceil_div.
  rewrite Z.div_mul by lia.
  replace (k * b + b - 1) with ((b - 1) + k * b) by lia.
  rewrite Z.div_add by lia. rewrite Z.div_small by lia. lia.
Qed.

(* ------------------------------------------------------------------ *)
(** ** Identity tile copy *)

Lemma evenly_tiled_uint8_true (g : Geometry) (tr : list Event) :
  0 < tw g -> 0 < th g ->
  evenly_tiled_uint8_spec g ->
  evenly_tiled_uint8 g tr = (tr, Ok true).
Proof.
  intros Htw Hth (Dw & Dh & Hb & Hs).
  unfold evenly_tiled_uint8, divides_evenly, andR, lift, py_mod.
  unfold bind, ret.
  rewrite (proj2 (Z.eqb_neq (tw g) 0)) by lia.
  rewrite (proj2 (Z.eqb_neq (th g) 0)) by lia.
  rewrite (proj2 (Z.eqb_eq (imagewidth g mod tw g) 0))
    by (apply Z.mod_divide; [lia|assumption]).
  rewrite (proj2 (Z.eqb_eq (imageheight g mod th g) 0))
    by (apply Z.mod_divide; [lia|assumption]).
  rewrite Hb, Hs. reflexivity.
Qed.

(** An evenly tiled image is not smaller than its tile, so the first guard
    fails on the width, before the source is asked for anything. *)
Lemma whole_image_guard_false (fp : Tiff) (g : Geometry) (tr : list Event) :
  0 < imagewidth g -> 0 < tw g -> (tw g | imagewidth g) ->
  (ret (tw g >? imagewidth g) &&& ret (th g >? imageheight g)
   &&& RGBAImageOK fp) tr = (tr, Ok false).
Proof.
  intros Hw Htw Dw.
  assert (Hle : tw g <= imagewidth g) by (apply Z.divide_pos_le; assumption).
  unfold andR. unfold bind, ret. rewrite Z.gtb_ltb.
  rewrite (proj2 (Z.ltb_ge _ _)) by lia. reflexivity.
Qed.

Lemma select_identity_copy (self : Tiff2Jp2k) (fp : Tiff) (g : Geometry)
  (tr : list Event) :
  0 < imagewidth g -> 0 < tw g -> 0 < th g ->
  identity_copy_guard self g ->
  select_strategy self fp g tr = (tr, Ok (Some IdentityCopy)).
Proof.
  intros Hw Htw Hth (Hev & Hts).
  unfold select_strategy. unfold bind at 1.
  rewrite (whole_image_guard_false fp g tr Hw Htw (proj1 Hev)).
  unfold bind at 1.
  rewrite (andR_eq _ _ _ _ _ (evenly_tiled_uint8_true g tr Htw Hth Hev)).
  rewrite Hts. reflexivity.
Qed.

Lemma np_zeros_ok (h w s : Z) :
  0 <= h -> 0 <= w -> 0 <= s ->
  exists d, np_zeros (h, w, s) = Ok {| nd_shape := (h, w, s); nd_data := d |}.
Proof.
  intros Hh Hw Hs. unfold np_zeros.
  rewrite (proj2 (Z.ltb_ge h 0)), (proj2 (Z.ltb_ge w 0)),
    (proj2 (Z.ltb_ge s 0)) by lia.
  eexists. reflexivity.
Qed.

Lemma identity_copy_eq (fp : Tiff) (tr : list Event) :
  0 <= TileLength fp -> 0 <= TileWidth fp -> 0 <= SamplesPerPixel fp ->
  identity_copy fp (geometry_of fp) tr =
  (tr ++ [EvJp2kTiled (ImageLength fp, ImageWidth fp, SamplesPerPixel fp)
            (TileLength fp, TileWidth fp)]
      ++ flat_map (identity_copy_events fp)
           (indices (ceil_div (ImageLength fp) (TileLength fp)
                     * ceil_div (ImageWidth fp) (TileWidth fp))),
   Ok tt).
Proof.
  intros Hth Htw Hs. unfold identity_copy. cbn [geometry_of th tw spp imageheight imagewidth].
  destruct (np_zeros_ok _ _ _ Hth Htw Hs) as (d & Ez).
  unfold bind at 1. unfold lift. rewrite Ez.
  unfold bind at 1. unfold Jp2k_tiled, bind at 1, emit, ret at 1.
  unfold bind at 1.
  destruct (for_each_events
              (fun t => nd_shape t = (TileLength fp, TileWidth fp, SamplesPerPixel fp))
              (identity_copy_events fp)
              (fun idx tile =>
                 tile <- readEncodedTile fp idx tile ;;
                 tilewriter_set idx tile ;;; ret tile)
              (get_tilewriters
                 ((ImageLength fp, ImageWidth fp, SamplesPerPixel fp),
                  (TileLength fp, TileWidth fp))))
    with (s := {| nd_shape := (TileLength fp, TileWidth fp, SamplesPerPixel fp);
                  nd_data := d |})
         (tr := tr ++ [EvJp2kTiled (ImageLength fp, ImageWidth fp, SamplesPerPixel fp)
                         (TileLength fp, TileWidth fp)])
    as (s' & E & _).
  - intros b s t _ Hsh. eexists. split.
    + unfold readEncodedTile, tilewriter_set, bind, emit, ret.
      rewrite <- app_assoc. cbn [app]. unfold identity_copy_events, source_tile.
      rewrite Hsh. reflexivity.
    + reflexivity.
  - reflexivity.
  - rewrite E. unfold get_tilewriters. rewrite <- app_assoc. reflexivity.
Qed.

Lemma tiles_written_identity_copy (fp : Tiff) (l : list Z) :
  tiles_written (flat_map (identity_copy_events fp) l)
  = map (fun i => (i, source_tile fp i)) l.
Proof.
  induction l as [|i l IH]; [reflexivity|].
  cbn. rewrite IH. reflexivity.
Qed.

(** C5: with an image evenly divided by the source tiles, 8-bit unsigned
    samples and no destination tile size asked for, [run] creates the
    destination with the source's tile size and then, for i = 0, 1, 2, ...
    in this order, reads source tile i and writes to destination tile i the
    buffer the reader filled, sample for sample. *)
Theorem identity_copy_forwards_tiles (self : Tiff2Jp2k) (fp : Tiff) :
  tiled fp = true ->
  0 < ImageWidth fp -> 0 < ImageLength fp ->
  0 < TileWidth fp -> 0 < TileLength fp -> 0 <= SamplesPerPixel fp ->
  identity_copy_guard self (geometry_of fp) ->
  let n := ImageLength fp / TileLength fp * (ImageWidth fp / TileWidth fp) in
  run self fp [] =
  ([EvIsTiled] ++ geometry_events
   ++ [EvJp2kTiled (ImageLength fp, ImageWidth fp, SamplesPerPixel fp)
         (TileLength fp, TileWidth fp)]
   ++ flat_map (fun i => [EvReadEncodedTile i; EvTileWrite i (source_tile fp i)])
        (indices n),
   Ok tt)
  /\ tiles_written (fst (run self fp []))
     = map (fun i => (i, source_tile fp i)) (indices n)
  /\ forall i tile, In (i, tile) (tiles_written (fst (run self fp []))) ->
                    nd_data tile = encoded_tile fp i.
Proof.
  intros Ht Hw Hh Htw Hth Hs Hg n.
  assert (E : run self fp [] =
              ([EvIsTiled] ++ geometry_events
               ++ [EvJp2kTiled (ImageLength fp, ImageWidth fp, SamplesPerPixel fp)
                     (TileLength fp, TileWidth fp)]
               ++ flat_map (identity_copy_events fp) (indices n), Ok tt)).
  { rewrite (run_tiled_eq self fp [] Ht). unfold bind.
    rewrite (select_identity_copy self fp (geometry_of fp) _ Hw Htw Hth Hg).
    rewrite identity_copy_eq by lia.
    destruct Hg as ((Dw & Dh & _) & _). cbn in Dw, Dh.
    rewrite (ceil_div_exact _ _ Hth Dh), (ceil_div_exact _ _ Htw Dw).
    unfold geometry_events. reflexivity. }
  assert (Ew : tiles_written (fst (run self fp []))
               = map (fun i => (i, source_tile fp i)) (indices n)).
  { rewrite E. cbn [fst]. rewrite !tiles_written_app.
    rewrite tiles_written_identity_copy. reflexivity. }
  split; [exact E|]. split; [exact Ew|].
  intros i tile Hin. rewrite Ew in Hin. apply in_map_iff in Hin.
  destruct Hin as (j & Hj & _). inversion Hj; subst. reflexivity.
Qed.

Lemma identity_copy_forwards_tiles_witness :
  run {| tilesize := None |} tiff_4x4 [] =
  ([EvIsTiled] ++ geometry_events
   ++ [EvJp2kTiled (4, 4, 1) (2, 2)]
   ++ flat_map (fun i => [EvReadEncodedTile i;
                          EvTileWrite i (source_tile tiff_4x4 i)])
        (indices 4),
   Ok tt)
  /\ tiles_written (fst (run {| tilesize := None |} tiff_4x4 []))
     = map (fun i => (i, source_tile tiff_4x4 i)) (indices 4)
  /\ forall i tile,
       In (i, tile) (tiles_written (fst (run {| tilesize := None |} tiff_4x4 []))) ->
       nd_data tile = encoded_tile tiff_4x4 i.
Proof.
  apply (identity_copy_forwards_tiles {| tilesize := None |} tiff_4x4);
    try reflexivity; try (cbn; lia).
  unfold identity_copy_guard, evenly_tiled_uint8_spec. cbn.
  repeat split; exists 2; reflexivity.
Defined.

(* ------------------------------------------------------------------ *)
(** ** Arithmetic of the two grids *)

Lemma py_range_in (a b s : Z) (l : list Z) (y : Z) :
  0 < s -> py_range a b s = Ok l -> In y l ->
  a <= y < b /\ exists i, 0 <= i /\ y = a + i * s.
Proof.
  intros Hs E Hin. unfold py_range in E.
  rewrite (proj2 (Z.eqb_neq s 0)) in E by lia.
  inversion E; subst l; clear E.
  apply in_map_iff in Hin. destruct Hin as (i & <- & Hi).
  apply in_seq in Hi. unfold range_len in Hi.
  rewrite (proj2 (Z.ltb_lt 0 s)) in Hi by lia.
  destruct (Z.ltb_spec a b) as [Hab|Hab]; [|cbn in Hi; lia].
  assert (Hq : 0 <= (b - a - 1) / s) by (apply Z.div_pos; lia).
  assert (Hi' : Z.of_nat i <= (b - a - 1) / s) by lia.
  assert (Hm : s * ((b - a - 1) / s) <= b - a - 1)
    by (apply Z.mul_div_le; lia).
  split; [nia|]. exists (Z.of_nat i). split; lia.
Qed.

Lemma py_range_ok (a b s : Z) : 0 < s -> exists l, py_range a b s = Ok l.
Proof.
  intros Hs. unfold py_range. rewrite (proj2 (Z.eqb_neq s 0)) by lia.
  eexists. reflexivity.
Qed.

Lemma indices_in (n i : Z) : In i (indices n) <-> 0 <= i < n.
Proof.
  unfold indices. rewrite in_map_iff. split.
  - intros (k & <- & Hk). apply in_seq in Hk. lia.
  - intros Hi. exists (Z.to_nat i). split; [lia|]. apply in_seq. lia.
Qed.

Lemma divide_div_mul (a b : Z) : 0 < b -> (b | a) -> a / b * b = a.
Proof. intros Hb [k ->]. rewrite Z.div_mul by lia. reflexivity. Qed.

(** A value inside the tile that starts at a multiple of the tile size is
    taken by [%] to its offset from the tile's origin. *)
Lemma mod_local (v base m q : Z) :
  0 < m -> base = q * m -> base <= v < base + m -> v mod m = v - base.
Proof.
  intros Hm Hb Hv. symmetry. apply (Z.mod_unique v m q); lia.
Qed.

Lemma tile_origin_bounds (v m : Z) :
  0 < m -> v / m * m <= v < v / m * m + m.
Proof.
  intros Hm. pose proof (Z.div_mod v m ltac:(lia)).
  pose proof (Z.mod_pos_bound v m Hm). lia.
Qed.

(** An index of the row-major grid splits into its row and its column. *)
Lemma grid_index_split (r c n : Z) :
  0 <= c < n -> (r * n + c) / n = r /\ (r * n + c) mod n = c.
Proof.
  intros Hc. split.
  - symmetry. apply (Z.div_unique (r * n + c) n r c); lia.
  - symmetry. apply (Z.mod_unique (r * n + c) n r c); lia.
Qed.

Lemma divide_div_pos (a b : Z) : 0 < a -> 0 < b -> (b | a) -> 0 < a / b.
Proof.
  intros Ha Hb Hd. pose proof (divide_div_mul a b Hb Hd). nia.
Qed.

(** Where the JP2K tile [idx] lies and what the scan of lines 119-120 visits
    in it. *)
Lemma scanned_bounds (g : Geometry) (jth jtw idx y x : Z) :
  regrid_ready g jth jtw ->
  scanned g jth jtw idx y x ->
  let julr := julr_of g jth jtw idx in
  let julc := julc_of g jth jtw idx in
  0 <= julr /\ julr + jth <= imageheight g
  /\ 0 <= julc /\ julc + jtw <= imagewidth g
  /\ julr <= y < julr + jth /\ julc <= x < julc + jtw
  /\ (exists i, 0 <= i /\ y = julr + i * th g)
  /\ (exists i, 0 <= i /\ x = julc + i * tw g).
Proof.
  intros (Hw & Hh & Htw & Hth & Hjth & Hjtw & Dw & Dh & Djh & Djw)
         (Hidx & (ys & Eys & Hy) & (xs & Exs & Hx)).
  intros julr julc. unfold get_tilewriters in Hidx.
  rewrite (ceil_div_exact _ _ Hjth Djh), (ceil_div_exact _ _ Hjtw Djw) in Hidx.
  apply indices_in in Hidx.
  pose proof (divide_div_pos _ _ Hw Hjtw Djw) as Hnc.
  pose proof (divide_div_pos _ _ Hh Hjth Djh) as Hnr.
  pose proof (divide_div_mul _ _ Hjth Djh) as Mh.
  pose proof (divide_div_mul _ _ Hjtw Djw) as Mw.
  assert (Hr : 0 <= idx / (imagewidth g / jtw) < imageheight g / jth).
  { split; [apply Z.div_pos; lia|].
    apply Z.div_lt_upper_bound; [lia|]. lia. }
  pose proof (Z.mod_pos_bound idx (imagewidth g / jtw) Hnc) as Hc.
  assert (B1 : 0 <= julr /\ julr + jth <= imageheight g)
    by (unfold julr, julr_of; nia).
  assert (B2 : 0 <= julc /\ julc + jtw <= imagewidth g)
    by (unfold julc, julc_of; nia).
  unfold scan_rows in Eys. unfold scan_cols in Exs.
  fold julr in Eys. fold julc in Exs.
  rewrite Z.min_l in Eys, Exs by lia.
  destruct (py_range_in _ _ _ _ _ Hth Eys Hy) as (Ry & Iy).
  destruct (py_range_in _ _ _ _ _ Htw Exs Hx) as (Rx & Ix).
  repeat split; try lia; assumption.
Qed.

(** The TIFF tile that [computeTile] names for a pixel of the image: its
    row and column in the TIFF grid are those of the pixel. *)
Lemma tile_index_split (fp : Tiff) (x y : Z) :
  let g := geometry_of fp in
  0 < tw g -> (tw g | imagewidth g) ->
  0 <= x < imagewidth g ->
  tile_index fp x y / (imagewidth g / tw g) = y / th g
  /\ tile_index fp x y mod (imagewidth g / tw g) = x / tw g.
Proof.
  intros g Htw Dw Hx. unfold tile_index.
  change (TileWidth fp) with (tw g). change (ImageWidth fp) with (imagewidth g).
  change (TileLength fp) with (th g).
  rewrite (ceil_div_exact _ _ Htw Dw).
  apply grid_index_split.
  pose proof (divide_div_mul _ _ Htw Dw) as Mw.
  split; [apply Z.div_pos; lia|].
  apply Z.div_lt_upper_bound; [lia|]. lia.
Qed.

(** [fit_tile] for a TIFF tile that meets the JP2K tile: the section in
    image coordinates, and the two translations of it. *)
Lemma fit_tile_eq (g : Geometry) (jth jtw nct julr julc tilenum qr qc : Z) :
  0 < jth -> 0 < jtw -> 0 < th g -> 0 < tw g -> nct <> 0 ->
  julr = qr * jth -> julc = qc * jtw ->
  let tulr := tilenum / nct * th g in
  let tulc := tilenum mod nct * tw g in
  tulr < julr + jth -> julr < tulr + th g ->
  tulc < julc + jtw -> julc < tulc + tw g ->
  let u := Z.max julr tulr in
  let l := Z.min (julr + jth) (tulr + th g) in
  let uc := Z.max julc tulc in
  let rc := Z.min (julc + jtw) (tulc + tw g) in
  fit_tile g jth jtw nct julr julc tilenum =
  Ok {| ulr := u; llr := l; ulc := uc; urc := rc;
        j2k_rows := (u - julr, l - julr); j2k_cols := (uc - julc, rc - julc);
        tiff_rows := (u - tulr, l - tulr);
        tiff_cols := (uc - tulc, rc - tulc) |}.
Proof.
  intros Hjth Hjtw Hth Htw Hn Er Ec tulr tulc R1 R2 C1 C2 u l uc rc.
  unfold fit_tile, py_floordiv, py_mod.
  rewrite (proj2 (Z.eqb_neq nct 0)) by assumption.
  rewrite (proj2 (Z.eqb_neq jth 0)), (proj2 (Z.eqb_neq jtw 0)) by lia.
  rewrite (proj2 (Z.eqb_neq (th g) 0)), (proj2 (Z.eqb_neq (tw g) 0)) by lia.
  cbn [rbind]. fold tulr tulc. fold u l uc rc.
  rewrite (mod_local u julr jth qr), (mod_local (l - 1) julr jth qr)
    by (unfold u, l; lia).
  rewrite (mod_local uc julc jtw qc), (mod_local (rc - 1) julc jtw qc)
    by (unfold uc, rc; lia).
  rewrite (mod_local u tulr (th g) (tilenum / nct)),
    (mod_local (l - 1) tulr (th g) (tilenum / nct))
    by (unfold u, l, tulr; lia).
  rewrite (mod_local uc tulc (tw g) (tilenum mod nct)),
    (mod_local (rc - 1) tulc (tw g) (tilenum mod nct))
    by (unfold uc, rc, tulc; lia).
  do 2 f_equal; f_equal; lia.
Qed.

(** One scanned position: the TIFF tile found there meets the JP2K tile,
    and [fit_tile] returns their common section with its two translations. *)
Lemma fit_tile_scanned (fp : Tiff) (jth jtw idx y x : Z) :
  let g := geometry_of fp in
  regrid_ready g jth jtw ->
  scanned g jth jtw idx y x ->
  let julr := julr_of g jth jtw idx in
  let julc := julc_of g jth jtw idx in
  let tilenum := tile_index fp x y in
  let tulr := tulr_of g tilenum in
  let tulc := tulc_of g tilenum in
  let u := Z.max julr tulr in
  let l := Z.min (julr + jth) (tulr + th g) in
  let uc := Z.max julc tulc in
  let rc := Z.min (julc + jtw) (tulc + tw g) in
  fit_tile g jth jtw (imagewidth g / tw g) julr julc tilenum =
  Ok {| ulr := u; llr := l; ulc := uc; urc := rc;
        j2k_rows := (u - julr, l - julr); j2k_cols := (uc - julc, rc - julc);
        tiff_rows := (u - tulr, l - tulr);
        tiff_cols := (uc - tulc, rc - tulc) |}
  /\ (julr <= u <= y /\ y < l <= julr + jth /\ tulr <= u /\ l <= tulr + th g)
  /\ (julc <= uc <= x /\ x < rc <= julc + jtw /\ tulc <= uc /\ rc <= tulc + tw g).
Proof.
  intros g Hr Hs julr julc tilenum tulr tulc.
  pose proof (scanned_bounds g jth jtw idx y x Hr Hs) as B.
  fold julr julc in B. cbv zeta in B.
  destruct B as (B1 & B2 & B3 & B4 & By & Bx & _ & _).
  destruct Hr as (Hw & Hh & Htw & Hth & Hjth & Hjtw & Dw & Dh & Djh & Djw).
  assert (Hx : 0 <= x < imagewidth g) by lia.
  destruct (tile_index_split fp x y Htw Dw Hx) as (Er & Ec).
  fold g tilenum in Er, Ec.
  assert (Tr : tulr = y / th g * th g) by (unfold tulr, tulr_of; rewrite Er; reflexivity).
  assert (Tc : tulc = x / tw g * tw g) by (unfold tulc, tulc_of; rewrite Ec; reflexivity).
  pose proof (tile_origin_bounds y (th g) Hth) as Oy.
  pose proof (tile_origin_bounds x (tw g) Htw) as Ox.
  rewrite <- Tr in Oy. rewrite <- Tc in Ox.
  intros u l uc rc. split; [|unfold u, l, uc, rc; lia].
  apply (fit_tile_eq g jth jtw (imagewidth g / tw g) julr julc tilenum
           (idx / (imagewidth g / jtw)) (idx mod (imagewidth g / jtw)));
    try assumption; try reflexivity;
    try (fold (tulr_of g tilenum); fold tulr; lia);
    try (fold (tulc_of g tilenum); fold tulc; lia).
  pose proof (divide_div_pos _ _ Hw Htw Dw). lia.
Qed.

(** C8: at every position scanned while a JP2K tile is filled, the
    coordinates the code obtains with [%] (rows from [ulr % jth] to
    [(llr - 1) % jth + 1], and likewise for columns and for the TIFF tile
    with [th] and [tw]) are the bounds of the section minus the origin of the
    respective tile, as the spec describes the translation. *)
Theorem local_coordinates_by_translation (fp : Tiff) (jth jtw idx y x : Z) :
  let g := geometry_of fp in
  regrid_ready g jth jtw ->
  scanned g jth jtw idx y x ->
  let julr := julr_of g jth jtw idx in
  let julc := julc_of g jth jtw idx in
  let tilenum := tile_index fp x y in
  exists f,
    fit_tile g jth jtw (imagewidth g / tw g) julr julc tilenum = Ok f
    /\ j2k_rows f = translate_spec (ulr f) (llr f) julr
    /\ j2k_cols f = translate_spec (ulc f) (urc f) julc
    /\ tiff_rows f = translate_spec (ulr f) (llr f) (tulr_of g tilenum)
    /\ tiff_cols f = translate_spec (ulc f) (urc f) (tulc_of g tilenum).
Proof.
  intros g Hr Hs julr julc tilenum.
  destruct (fit_tile_scanned fp jth jtw idx y x Hr Hs) as (E & _ & _).
  eexists. split; [exact E|]. repeat split.
Qed.

Ltac solve_divide :=
  match goal with
  | |- (?b | ?a) => exists (a / b); vm_compute; reflexivity
  end.

Lemma local_coordinates_by_translation_witness :
  exists f,
    fit_tile (geometry_of tiff_96x32) 32 16
      (imagewidth (geometry_of tiff_96x32) / tw (geometry_of tiff_96x32))
      (julr_of (geometry_of tiff_96x32) 32 16 2)
      (julc_of (geometry_of tiff_96x32) 32 16 2)
      (tile_index tiff_96x32 0 32) = Ok f
    /\ j2k_rows f = translate_spec (ulr f) (llr f)
                      (julr_of (geometry_of tiff_96x32) 32 16 2)
    /\ j2k_cols f = translate_spec (ulc f) (urc f)
                      (julc_of (geometry_of tiff_96x32) 32 16 2)
    /\ tiff_rows f = translate_spec (ulr f) (llr f)
                       (tulr_of (geometry_of tiff_96x32) (tile_index tiff_96x32 0 32))
    /\ tiff_cols f = translate_spec (ulc f) (urc f)
                       (tulc_of (geometry_of tiff_96x32) (tile_index tiff_96x32 0 32)).
Proof.
  apply (local_coordinates_by_translation tiff_96x32 32 16 2 32 0).
  - unfold regrid_ready. cbn. repeat split; try lia; solve_divide.
  - unfold scanned. split; [vm_compute; tauto|].
    split; eexists; (split; [vm_compute; reflexivity | vm_compute; tauto]).
Defined.

(* ------------------------------------------------------------------ *)
(** ** Slices and their shapes *)

Lemma slice_len_inside (a b n : Z) :
  0 <= a <= b -> b <= n -> slice_len (a, b) n = b - a.
Proof.
  intros Hab Hb. unfold slice_len, adjust_index. cbn [fst snd].
  rewrite (proj2 (Z.ltb_ge a 0)), (proj2 (Z.ltb_ge b 0)) by lia. lia.
Qed.

Lemma nd_get_shape (a : ndarray) (rows cols : Z * Z) (h w s : Z) :
  nd_shape a = (h, w, s) ->
  slice_shape a rows cols = (slice_len rows h, slice_len cols w, s).
Proof. intros E. unfold slice_shape, nd_get. rewrite E. reflexivity. Qed.

(** An assignment whose value has the shape of the target goes through,
    and leaves the shape of the array as it was. *)
Lemma nd_set_same_shape (a v : ndarray) (rows cols : Z * Z) :
  nd_shape v = slice_shape a rows cols ->
  exists a', nd_set a rows cols v = Ok a' /\ nd_shape a' = nd_shape a.
Proof.
  unfold slice_shape, nd_get, nd_set.
  destruct (nd_shape a) as [[h w] s]. cbn [nd_shape].
  intros ->. unfold broadcastable. rewrite !Z.eqb_refl. cbn [orb andb].
  eexists. split; reflexivity.
Qed.

(* ------------------------------------------------------------------ *)
(** ** Regridding: the copy steps go through *)

(** At a scanned position the section has the same shape in the frame of
    either tile: as many rows and columns as it has in the image. *)
Lemma section_shapes (fp : Tiff) (jth jtw idx y x : Z) (bufs : ndarray * ndarray) :
  let g := geometry_of fp in
  regrid_ready g jth jtw ->
  scanned g jth jtw idx y x ->
  buffers_shaped g jth jtw bufs ->
  exists f,
    fit_tile g jth jtw (imagewidth g / tw g) (julr_of g jth jtw idx)
      (julc_of g jth jtw idx) (tile_index fp x y) = Ok f
    /\ slice_shape (fst bufs) (j2k_rows f) (j2k_cols f)
       = (llr f - ulr f, urc f - ulc f, spp g)
    /\ slice_shape (snd bufs) (tiff_rows f) (tiff_cols f)
       = (llr f - ulr f, urc f - ulc f, spp g).
Proof.
  intros g Hr Hs (Sj & St).
  destruct (fit_tile_scanned fp jth jtw idx y x Hr Hs) as (E & Br & Bc).
  fold g in E, Br, Bc. cbv zeta in E, Br, Bc.
  eexists. split; [exact E|]. cbn [j2k_rows j2k_cols tiff_rows tiff_cols ulr llr ulc urc].
  rewrite (nd_get_shape _ _ _ _ _ _ Sj), (nd_get_shape _ _ _ _ _ _ St).
  rewrite !slice_len_inside by lia.
  split; f_equal; f_equal; lia.
Qed.

Lemma copy_tile_ok (fp : Tiff) (jth jtw idx y x : Z)
  (bufs : ndarray * ndarray) (tr : list Event) :
  let g := geometry_of fp in
  regrid_ready g jth jtw ->
  scanned g jth jtw idx y x ->
  buffers_shaped g jth jtw bufs ->
  exists bufs',
    copy_tile fp g jth jtw (imagewidth g / tw g) (julr_of g jth jtw idx)
      (julc_of g jth jtw idx) y x bufs tr
    = (tr ++ copy_events fp y x, Ok bufs')
    /\ buffers_shaped g jth jtw bufs'.
Proof.
  intros g Hr Hs Hb. destruct bufs as [jp tf].
  set (tf' := {| nd_shape := nd_shape tf;
                 nd_data := encoded_tile fp (tile_index fp x y) |}).
  assert (Hb' : buffers_shaped g jth jtw (jp, tf'))
    by (destruct Hb as (Sj & St); split; assumption).
  destruct (section_shapes fp jth jtw idx y x (jp, tf') Hr Hs Hb')
    as (f & E & Sh1 & Sh2).
  fold g in E. cbn [fst snd] in Sh1, Sh2.
  destruct (nd_set_same_shape jp (nd_get tf' (tiff_rows f) (tiff_cols f))
              (j2k_rows f) (j2k_cols f)) as (jp' & Eset & Sjp').
  { unfold slice_shape in *. rewrite Sh1, Sh2. reflexivity. }
  exists (jp', tf'). split.
  - unfold copy_tile, computeTile, readEncodedTile.
    unfold bind at 1. unfold bind at 1. unfold emit at 1, ret at 1.
    unfold bind at 1. unfold bind at 1. unfold emit at 1, ret at 1.
    fold tf'. unfold bind at 1. unfold lift at 1. rewrite E.
    unfold bind at 1. unfold try_except_ValueError, lift. rewrite Eset.
    unfold ret, copy_events. rewrite <- app_assoc. reflexivity.
  - destruct Hb as (Sj & St). cbn [fst snd] in Sj, St.
    split; cbn [fst snd]; [congruence|assumption].
Qed.

Lemma fill_tile_ok (fp : Tiff) (jth jtw idx : Z)
  (bufs : ndarray * ndarray) (tr : list Event) :
  let g := geometry_of fp in
  regrid_ready g jth jtw ->
  In idx (get_tilewriters ((imageheight g, imagewidth g, spp g), (jth, jtw))) ->
  buffers_shaped g jth jtw bufs ->
  exists bufs',
    fill_tile fp g jth jtw (imagewidth g / jtw) (imagewidth g / tw g) idx bufs tr
    = (tr ++ fill_events fp jth jtw idx ++ [EvTileWrite idx (fst bufs')], Ok bufs')
    /\ buffers_shaped g jth jtw bufs'.
Proof.
  intros g Hr Hidx Hb.
  pose proof Hr as (Hw & Hh & Htw & Hth & Hjth & Hjtw & Dw & Dh & Djh & Djw).
  pose proof (divide_div_pos _ _ Hw Hjtw Djw) as Hnc.
  destruct (py_range_ok (julr_of g jth jtw idx)
              (Z.min (julr_of g jth jtw idx + jth) (imageheight g)) (th g) Hth)
    as (ys & Eys).
  destruct (py_range_ok (julc_of g jth jtw idx)
              (Z.min (julc_of g jth jtw idx + jtw) (imagewidth g)) (tw g) Htw)
    as (xs & Exs).
  fold (scan_rows g jth (julr_of g jth jtw idx)) in Eys.
  fold (scan_cols g jtw (julc_of g jth jtw idx)) in Exs.
  destruct (for_each_events (buffers_shaped g jth jtw)
              (fun y => flat_map (copy_events fp y) xs)
              (fun y bufs =>
                 xs <- lift (scan_cols g jtw (julc_of g jth jtw idx)) ;;
                 for_each xs
                   (copy_tile fp g jth jtw (imagewidth g / tw g)
                      (julr_of g jth jtw idx) (julc_of g jth jtw idx) y) bufs)
              ys) with (s := bufs) (tr := tr) as (bufs' & E & Hb').
  - intros y s t Hy Hs. unfold bind, lift. rewrite Exs.
    apply for_each_events; [|assumption].
    intros x s0 t0 Hx Hs0.
    apply copy_tile_ok; [assumption| |assumption].
    split; [assumption|]. split; eexists; split; eassumption.
  - assumption.
  - exists bufs'. split; [|assumption].
    unfold fill_tile, py_floordiv, py_mod.
    rewrite (proj2 (Z.eqb_neq (imagewidth g / jtw) 0)) by lia.
    unfold bind at 1. unfold lift at 1. unfold bind at 1. unfold lift at 1.
    fold (julr_of g jth jtw idx). fold (julc_of g jth jtw idx).
    unfold bind at 1. unfold lift at 1. rewrite Eys.
    unfold bind at 1. rewrite E.
    unfold tilewriter_set, bind, emit, ret, fill_events.
    fold g. rewrite Eys, Exs. cbn [range_items].
    rewrite <- app_assoc. reflexivity.
Qed.

Lemma select_regrid (self : Tiff2Jp2k) (fp : Tiff) (jth jtw : Z)
  (tr : list Event) :
  regrid_preconditions self fp jth jtw ->
  select_strategy self fp (geometry_of fp) tr = (tr, Ok (Some Regrid)).
Proof.
  intros (_ & Hts & Hr & Hb & Hs & _).
  set (g := geometry_of fp) in *.
  destruct Hr as (Hw & Hh & Htw & Hth & Hjth & Hjtw & Dw & Dh & Djh & Djw).
  assert (Hev : evenly_tiled_uint8_spec g) by (repeat split; assumption).
  pose proof (evenly_tiled_uint8_true g tr Htw Hth Hev) as Ee.
  unfold select_strategy. unfold bind at 1.
  rewrite (whole_image_guard_false fp g tr Hw Htw Dw).
  unfold bind at 1. rewrite (andR_eq _ _ _ _ _ Ee). rewrite Hts.
  unfold ret at 1. cbv iota beta. unfold bind.
  assert (X1 : (evenly_tiled_uint8 g &&& ret true) tr = (tr, Ok true))
    by (rewrite (andR_eq _ _ _ _ _ Ee); reflexivity).
  assert (X2 : (evenly_tiled_uint8 g &&& ret true
                &&& divides_evenly (imageheight g) jth) tr = (tr, Ok true)).
  { rewrite (andR_eq _ _ _ _ _ X1), divides_evenly_eq.
    rewrite (proj2 (Z.eqb_neq jth 0)) by lia.
    rewrite (proj2 (Z.eqb_eq (imageheight g mod jth) 0))
      by (apply Z.mod_divide; [lia|assumption]).
    reflexivity. }
  rewrite (andR_eq _ _ _ _ _ X2), divides_evenly_eq.
  rewrite (proj2 (Z.eqb_neq jtw 0)) by lia.
  rewrite (proj2 (Z.eqb_eq (imagewidth g mod jtw) 0))
    by (apply Z.mod_divide; [lia|assumption]).
  reflexivity.
Qed.

Lemma fill_events_no_breakpoint (fp : Tiff) (jth jtw idx : Z) :
  ~ In EvBreakpoint (fill_events fp jth jtw idx).
Proof.
  unfold fill_events. intros H.
  apply in_flat_map in H. destruct H as (y & _ & H).
  apply in_flat_map in H. destruct H as (x & _ & H).
  cbn in H. intuition discriminate.
Qed.

(** The regridding loop runs to its end: every JP2K tile is filled and
    written, and the handler of lines 156-158 is never entered. *)
Lemma regrid_ok (fp : Tiff) (jth jtw : Z) (tr : list Event) :
  let g := geometry_of fp in
  regrid_ready g jth jtw -> 0 <= spp g ->
  ~ In EvBreakpoint tr ->
  exists tr', regrid fp g (jth, jtw) tr = (tr', Ok tt)
              /\ ~ In EvBreakpoint tr'.
Proof.
  intros g Hr Hspp Htr.
  pose proof Hr as (Hw & Hh & Htw & Hth & Hjth & Hjtw & Dw & Dh & Djh & Djw).
  destruct (np_zeros_ok (th g) (tw g) (spp g)) as (d1 & E1); try lia.
  destruct (np_zeros_ok jth jtw (spp g)) as (d2 & E2); try lia.
  unfold regrid, py_floordiv.
  rewrite (proj2 (Z.eqb_neq jth 0)), (proj2 (Z.eqb_neq jtw 0)),
    (proj2 (Z.eqb_neq (th g) 0)), (proj2 (Z.eqb_neq (tw g) 0)) by lia.
  rewrite E1, E2.
  unfold bind at 1. unfold lift at 1.
  unfold bind at 1. unfold Jp2k_tiled, bind at 1, emit at 1, ret at 1.
  do 6 (unfold bind at 1; unfold lift at 1).
  unfold bind at 1.
  destruct (for_each_invariant
              (fun s t => buffers_shaped g jth jtw s /\ ~ In EvBreakpoint t)
              (fill_tile fp g jth jtw (imagewidth g / jtw) (imagewidth g / tw g))
              (get_tilewriters ((imageheight g, imagewidth g, spp g), (jth, jtw))))
    with (s := ({| nd_shape := (jth, jtw, spp g); nd_data := d2 |},
                {| nd_shape := (th g, tw g, spp g); nd_data := d1 |}))
         (tr := tr ++ [EvJp2kTiled (imageheight g, imagewidth g, spp g) (jth, jtw)])
    as (s' & tr' & E & _ & Hbp).
  - intros idx s t Hidx (Hs & Ht).
    destruct (fill_tile_ok fp jth jtw idx s t Hr Hidx Hs) as (s1 & Es & Hs1).
    fold g in Es. do 2 eexists. split; [exact Es|]. split; [assumption|].
    rewrite !in_app_iff. intros [H|[H|H]]; [tauto| |].
    + exact (fill_events_no_breakpoint _ _ _ _ H).
    + cbn in H. intuition discriminate.
  - split; [split; reflexivity|].
    rewrite in_app_iff. intros [H|H]; [tauto|]. cbn in H. intuition discriminate.
  - exists tr'. unfold ret at 1. rewrite E. split; [reflexivity|assumption].
Qed.

Lemma run_regrid_ok (self : Tiff2Jp2k) (fp : Tiff) (jth jtw : Z) :
  regrid_preconditions self fp jth jtw ->
  snd (run self fp []) = Ok tt /\ ~ In EvBreakpoint (fst (run self fp [])).
Proof.
  intros Hp. pose proof Hp as (Ht & Hts & Hr & _ & _ & Hspp).
  rewrite (run_tiled_eq self fp [] Ht). unfold bind.
  rewrite (select_regrid self fp jth jtw _ Hp). rewrite Hts.
  destruct (regrid_ok fp jth jtw (([] ++ [EvIsTiled]) ++ geometry_events) Hr Hspp)
    as (tr' & E & Hbp).
  { cbn. intuition discriminate. }
  rewrite E. split; [reflexivity|assumption].
Qed.

(** C7: under the preconditions of the regridding strategy, at every copy
    step the sub-rectangle of the TIFF tile and the sub-rectangle of the
    JP2K tile have the same shape, so that the assignment of line 155 never
    raises ValueError: [run] returns normally and the handler with its
    breakpoint is never entered. *)
Theorem copy_region_shapes_agree (self : Tiff2Jp2k) (fp : Tiff) (jth jtw : Z) :
  regrid_preconditions self fp jth jtw ->
  let g := geometry_of fp in
  (forall idx y x bufs,
      scanned g jth jtw idx y x ->
      buffers_shaped g jth jtw bufs ->
      exists f,
        fit_tile g jth jtw (imagewidth g / tw g) (julr_of g jth jtw idx)
          (julc_of g jth jtw idx) (tile_index fp x y) = Ok f
        /\ slice_shape (snd bufs) (tiff_rows f) (tiff_cols f)
           = slice_shape (fst bufs) (j2k_rows f) (j2k_cols f))
  /\ snd (run self fp []) = Ok tt
  /\ ~ In EvBreakpoint (fst (run self fp [])).
Proof.
  intros Hp g. split; [|exact (run_regrid_ok self fp jth jtw Hp)].
  destruct Hp as (_ & _ & Hr & _).
  intros idx y x bufs Hs Hb.
  destruct (section_shapes fp jth jtw idx y x bufs Hr Hs Hb) as (f & E & S1 & S2).
  exists f. split; [exact E|]. congruence.
Qed.

Lemma regrid_preconditions_96x32 :
  regrid_preconditions {| tilesize := Some (32, 16) |} tiff_96x32 32 16.
Proof.
  unfold regrid_preconditions, regrid_ready. cbn.
  repeat split; try lia; solve_divide.
Qed.

Lemma copy_region_shapes_agree_witness :
  (forall idx y x bufs,
      scanned (geometry_of tiff_96x32) 32 16 idx y x ->
      buffers_shaped (geometry_of tiff_96x32) 32 16 bufs ->
      exists f,
        fit_tile (geometry_of tiff_96x32) 32 16
          (imagewidth (geometry_of tiff_96x32) / tw (geometry_of tiff_96x32))
          (julr_of (geometry_of tiff_96x32) 32 16 idx)
          (julc_of (geometry_of tiff_96x32) 32 16 idx)
          (tile_index tiff_96x32 x y) = Ok f
        /\ slice_shape (snd bufs) (tiff_rows f) (tiff_cols f)
           = slice_shape (fst bufs) (j2k_rows f) (j2k_cols f))
  /\ snd (run {| tilesize := Some (32, 16) |} tiff_96x32 []) = Ok tt
  /\ ~ In EvBreakpoint (fst (run {| tilesize := Some (32, 16) |} tiff_96x32 [])).
Proof.
  apply (copy_region_shapes_agree {| tilesize := Some (32, 16) |} tiff_96x32 32 16).
  unfold regrid_preconditions, regrid_ready. cbn.
  repeat split; try lia; solve_divide.
Defined.

(* ------------------------------------------------------------------ *)
(** ** Regridding: the TIFF tiles read for one JP2K tile *)

Lemma tiles_read_app (t1 t2 : list Event) :
  tiles_read (t1 ++ t2) = tiles_read t1 ++ tiles_read t2.
Proof.
  induction t1 as [|ev t1 IH]; [reflexivity|].
  destruct ev; cbn; rewrite ?IH; reflexivity.
Qed.

Lemma tiles_read_copy_events (fp : Tiff) (y : Z) (xs : list Z) :
  tiles_read (flat_map (copy_events fp y) xs)
  = map (fun x => tile_index fp x y) xs.
Proof.
  induction xs as [|x xs IH]; [reflexivity|]. cbn. rewrite IH. reflexivity.
Qed.

Lemma tiles_read_fill_events (fp : Tiff) (ys xs : list Z) :
  tiles_read (flat_map (fun y => flat_map (copy_events fp y) xs) ys)
  = flat_map (fun y => map (fun x => tile_index fp x y) xs) ys.
Proof.
  induction ys as [|y ys IH]; [reflexivity|].
  cbn [flat_map]. rewrite tiles_read_app, tiles_read_copy_events, IH.
  reflexivity.
Qed.

Lemma py_range_NoDup (a b s : Z) (l : list Z) :
  py_range a b s = Ok l -> NoDup l.
Proof.
  unfold py_range. destruct (Z.eqb_spec s 0) as [|Hs]; [discriminate|].
  intros E. inversion E; subst l; clear E.
  apply NoDup_map_NoDup_ForallPairs; [|apply seq_NoDup].
  intros i j _ _ H. nia.
Qed.

(** A grid of values without repetition: distinct rows and distinct columns
    give distinct entries when the entry determines its row and column. *)
Lemma NoDup_grid {A B C} (f : A -> B -> C) (ys : list A) (xs : list B) :
  NoDup ys -> NoDup xs ->
  (forall y y' x x', In y ys -> In y' ys -> In x xs -> In x' xs ->
                     f y x = f y' x' -> y = y' /\ x = x') ->
  NoDup (flat_map (fun y => map (f y) xs) ys).
Proof.
  intros Hys Hxs Hinj. induction Hys as [|y ys Hy Hys IH]; [constructor|].
  cbn [flat_map]. apply NoDup_app.
  - apply NoDup_map_NoDup_ForallPairs; [|assumption].
    intros x x' Hx Hx' E.
    apply (Hinj y y x x'); auto using in_eq.
  - apply IH. intros y1 y2 x1 x2 H1 H2. apply Hinj; right; assumption.
  - intros c Hc1 Hc2. apply in_map_iff in Hc1. destruct Hc1 as (x & <- & Hx).
    apply in_flat_map in Hc2. destruct Hc2 as (y' & Hy' & Hc2).
    apply in_map_iff in Hc2. destruct Hc2 as (x' & E & Hx').
    destruct (Hinj y' y x' x) as [-> _]; auto using in_eq, in_cons.
Qed.

(** Two scanned positions of one JP2K tile that fall into the same TIFF
    tile are the same position. *)
Lemma scanned_tile_index_inj (fp : Tiff) (jth jtw idx y y' x x' : Z) :
  let g := geometry_of fp in
  regrid_ready g jth jtw ->
  scanned g jth jtw idx y x ->
  scanned g jth jtw idx y' x' ->
  tile_index fp x y = tile_index fp x' y' -> y = y' /\ x = x'.
Proof.
  intros g Hr Hs Hs' E.
  pose proof (scanned_bounds g jth jtw idx y x Hr Hs) as B.
  pose proof (scanned_bounds g jth jtw idx y' x' Hr Hs') as B'.
  cbv zeta in B, B'.
  destruct B as (B1 & B2 & B3 & B4 & By & Bx & (i & Hi & Ey) & (j & Hj & Ex)).
  destruct B' as (_ & _ & _ & _ & By' & Bx' & (i' & Hi' & Ey') & (j' & Hj' & Ex')).
  destruct Hr as (Hw & Hh & Htw & Hth & Hjth & Hjtw & Dw & Dh & Djh & Djw).
  assert (Hx : 0 <= x < imagewidth g) by lia.
  assert (Hx' : 0 <= x' < imagewidth g) by lia.
  destruct (tile_index_split fp x y Htw Dw Hx) as (Er & Ec).
  destruct (tile_index_split fp x' y' Htw Dw Hx') as (Er' & Ec').
  fold g in Er, Ec, Er', Ec'. rewrite E in Er, Ec.
  assert (Qy : y / th g = y' / th g) by congruence.
  assert (Qx : x / tw g = x' / tw g) by congruence.
  rewrite Ey, Ey', !Z.div_add in Qy by lia.
  rewrite Ex, Ex', !Z.div_add in Qx by lia.
  split; [rewrite Ey, Ey' | rewrite Ex, Ex']; f_equal; f_equal; lia.
Qed.

(** C10: while one JP2K tile is filled, the scanned positions fall into
    TIFF tiles that are all different, so that no TIFF tile is read twice
    for the same JP2K tile. *)
Theorem source_tiles_read_once (fp : Tiff) (jth jtw idx : Z)
  (bufs : ndarray * ndarray) :
  let g := geometry_of fp in
  regrid_ready g jth jtw ->
  In idx (get_tilewriters ((imageheight g, imagewidth g, spp g), (jth, jtw))) ->
  buffers_shaped g jth jtw bufs ->
  NoDup (tiles_read
           (fst (fill_tile fp g jth jtw (imagewidth g / jtw)
                   (imagewidth g / tw g) idx bufs []))).
Proof.
  intros g Hr Hidx Hb.
  destruct (fill_tile_ok fp jth jtw idx bufs [] Hr Hidx Hb) as (bufs' & E & _).
  fold g in E. rewrite E. cbn [fst app].
  rewrite tiles_read_app. cbn [tiles_read]. rewrite app_nil_r.
  unfold fill_events. fold g.
  pose proof Hr as (Hw & Hh & Htw & Hth & Hjth & Hjtw & Dw & Dh & Djh & Djw).
  destruct (py_range_ok (julr_of g jth jtw idx)
              (Z.min (julr_of g jth jtw idx + jth) (imageheight g)) (th g) Hth)
    as (ys & Eys).
  destruct (py_range_ok (julc_of g jth jtw idx)
              (Z.min (julc_of g jth jtw idx + jtw) (imagewidth g)) (tw g) Htw)
    as (xs & Exs).
  fold (scan_rows g jth (julr_of g jth jtw idx)) in Eys.
  fold (scan_cols g jtw (julc_of g jth jtw idx)) in Exs.
  rewrite Eys, Exs. cbn [range_items].
  rewrite tiles_read_fill_events.
  apply (NoDup_grid (fun y x => tile_index fp x y)).
  - exact (py_range_NoDup _ _ _ _ Eys).
  - exact (py_range_NoDup _ _ _ _ Exs).
  - intros y y' x x' Hy Hy' Hx Hx' Et.
    apply (scanned_tile_index_inj fp jth jtw idx y y' x x' Hr); try assumption;
      (split; [assumption|]; split; eexists; split; eassumption).
Qed.

Lemma source_tiles_read_once_witness :
  NoDup (tiles_read
           (fst (fill_tile tiff_96x32 (geometry_of tiff_96x32) 96 32
                   (imagewidth (geometry_of tiff_96x32) / 32)
                   (imagewidth (geometry_of tiff_96x32)
                    / tw (geometry_of tiff_96x32))
                   0 (scratch 96 32 48 16) []))).
Proof.
  apply (source_tiles_read_once tiff_96x32 96 32 0 (scratch 96 32 48 16)).
  - unfold regrid_ready. cbn. repeat split; try lia; solve_divide.
  - vm_compute. tauto.
  - split; reflexivity.
Defined.

(* ------------------------------------------------------------------ *)
(** ** Regridding: a destination tile that straddles two source tiles *)

(** C1 at a 96 x 32 image in 48 x 16 TIFF tiles, regridded to 32 x 16 JP2K
    tiles.  Both tile sizes divide the image evenly and [run] returns
    normally, but the destination put together again is not the image:
    at row 48, column 0 it holds sample 528, which is pixel (16, 16) of the
    image, left in the scratch buffer by the JP2K tile written before. *)
Theorem regrid_roundtrip_fails :
  regrid_preconditions {| tilesize := Some (32, 16) |} tiff_96x32 32 16
  /\ snd (run {| tilesize := Some (32, 16) |} tiff_96x32 []) = Ok tt
  /\ pixel_at (numbered_image 96 32) 48 0 = [1536]
  /\ pixel_at (reassemble 96 32 32 16
                 (tiles_written
                    (fst (run {| tilesize := Some (32, 16) |} tiff_96x32 []))))
       48 0 = [528]
  /\ regrid_roundtrip 96 32 48 16 32 16 = false.
Proof.
  split; [exact regrid_preconditions_96x32|].
  repeat split; vm_compute; reflexivity.
Qed.

(** C2 at the same input, for JP2K tile 2 (rows 32 to 63, columns 0 to 15):
    the scan visits TIFF tile 0 only, although TIFF tile 2 (rows 48 to 95,
    columns 0 to 15) meets the JP2K tile as well; the one section computed
    is rows 32 to 47, and pixel (48, 0) of the JP2K tile lies in no
    section. *)
Theorem scan_misses_intersecting_tile :
  regrid_ready (geometry_of tiff_96x32) 32 16
  /\ In 2 (get_tilewriters ((96, 32, 1), (32, 16)))
  /\ tiles_read
       (fst (fill_tile tiff_96x32 (geometry_of tiff_96x32) 32 16
               (32 / 16) (32 / 16) 2 (scratch 32 16 48 16) [])) = [0]
  /\ footprints_intersect (geometry_of tiff_96x32) 32 16 2 2 = true
  /\ map (fun f => (ulr f, llr f, ulc f, urc f)) (sections tiff_96x32 32 16 2)
     = [(32, 48, 0, 16)]
  /\ julr_of (geometry_of tiff_96x32) 32 16 2 = 32
  /\ julc_of (geometry_of tiff_96x32) 32 16 2 = 0
  /\ covered (sections tiff_96x32 32 16 2) 48 0 = false.
Proof.
  split; [exact (proj1 (proj2 (proj2 regrid_preconditions_96x32)))|].
  split; [vm_compute; tauto|].
  repeat split; vm_compute; reflexivity.
Qed.

(* ------------------------------------------------------------------ *)
(** ** Regridding: where the scan does cover the destination tile *)

Lemma py_range_member (a b s i : Z) (l : list Z) :
  0 < s -> py_range a b s = Ok l ->
  0 <= i -> a + i * s < b -> In (a + i * s) l.
Proof.
  intros Hs E Hi Hb. unfold py_range in E.
  rewrite (proj2 (Z.eqb_neq s 0)) in E by lia.
  inversion E; subst l; clear E.
  apply in_map_iff. exists (Z.to_nat i). split; [lia|].
  apply in_seq. unfold range_len.
  rewrite (proj2 (Z.ltb_lt 0 s)), (proj2 (Z.ltb_lt a b)) by nia.
  assert (i <= (b - a - 1) / s) by (apply Z.div_le_lower_bound; nia).
  lia.
Qed.

(** In one axis: when one tile size is a multiple of the other, the scan
    started at the origin of a JP2K tile reaches the TIFF tile of every
    coordinate of the JP2K tile. *)
Lemma aligned_scan_reaches (t j q v : Z) (l : list Z) :
  0 < t -> 0 < j -> aligned t j ->
  py_range (q * j) (q * j + j) t = Ok l ->
  q * j <= v < q * j + j ->
  exists y, In y l /\ Z.max (q * j) (y / t * t) <= v
            /\ v < Z.min (q * j + j) (y / t * t + t).
Proof.
  intros Ht Hj [[k Hk] | [k Hk]] El Hv.
  - (* the JP2K tile is k TIFF tiles long, and starts at a TIFF tile *)
    subst j. assert (Hkpos : 0 < k) by nia.
    pose proof (tile_origin_bounds v t Ht) as Bv.
    set (i := v / t - q * k).
    assert (Ey : q * (k * t) + i * t = v / t * t) by (unfold i; lia).
    assert (Hi : 0 <= i) by (unfold i; nia).
    exists (v / t * t). split.
    + rewrite <- Ey. apply (py_range_member _ _ _ _ _ Ht El Hi). nia.
    + rewrite Z.div_mul by lia. nia.
  - (* the TIFF tile is k JP2K tiles long: the JP2K tile lies inside one *)
    subst t. assert (Hkpos : 0 < k) by nia.
    exists (q * j). split.
    + replace (q * j) with (q * j + 0 * (k * j)) at 1 by lia.
      apply (py_range_member _ _ _ _ _ Ht El); lia.
    + pose proof (tile_origin_bounds (q * j) (k * j) Ht) as B.
      set (o := q * j / (k * j)) in *.
      assert (q * j + j <= o * (k * j) + k * j).
      { assert (q < o * k + k) by nia. nia. }
      lia.
Qed.

Lemma jp2k_tile_bounds (g : Geometry) (jth jtw idx : Z) :
  regrid_ready g jth jtw ->
  In idx (get_tilewriters ((imageheight g, imagewidth g, spp g), (jth, jtw))) ->
  0 <= julr_of g jth jtw idx
  /\ julr_of g jth jtw idx + jth <= imageheight g
  /\ 0 <= julc_of g jth jtw idx
  /\ julc_of g jth jtw idx + jtw <= imagewidth g.
Proof.
  intros (Hw & Hh & Htw & Hth & Hjth & Hjtw & Dw & Dh & Djh & Djw) Hidx.
  unfold get_tilewriters in Hidx.
  rewrite (ceil_div_exact _ _ Hjth Djh), (ceil_div_exact _ _ Hjtw Djw) in Hidx.
  apply indices_in in Hidx.
  pose proof (divide_div_pos _ _ Hw Hjtw Djw) as Hnc.
  pose proof (divide_div_mul _ _ Hjth Djh) as Mh.
  pose proof (divide_div_mul _ _ Hjtw Djw) as Mw.
  assert (Hr : 0 <= idx / (imagewidth g / jtw) < imageheight g / jth).
  { split; [apply Z.div_pos; lia|].
    apply Z.div_lt_upper_bound; [lia|]. lia. }
  pose proof (Z.mod_pos_bound idx (imagewidth g / jtw) Hnc) as Hc.
  unfold julr_of, julc_of. nia.
Qed.

Lemma tile_origin_of_index (fp : Tiff) (x y : Z) :
  let g := geometry_of fp in
  0 < tw g -> (tw g | imagewidth g) -> 0 <= x < imagewidth g ->
  tulr_of g (tile_index fp x y) = y / th g * th g
  /\ tulc_of g (tile_index fp x y) = x / tw g * tw g.
Proof.
  intros g Htw Dw Hx.
  destruct (tile_index_split fp x y Htw Dw Hx) as (Er & Ec).
  fold g in Er, Ec. unfold tulr_of, tulc_of. rewrite Er, Ec. split; reflexivity.
Qed.

(** When in either axis one tile size is a multiple of the other, the
    sections computed for a JP2K tile leave no pixel of it out. *)
Lemma sections_cover_aligned (fp : Tiff) (jth jtw idx r c : Z) :
  let g := geometry_of fp in
  regrid_ready g jth jtw ->
  aligned (th g) jth -> aligned (tw g) jtw ->
  In idx (get_tilewriters ((imageheight g, imagewidth g, spp g), (jth, jtw))) ->
  julr_of g jth jtw idx <= r < julr_of g jth jtw idx + jth ->
  julc_of g jth jtw idx <= c < julc_of g jth jtw idx + jtw ->
  covered (sections fp jth jtw idx) r c = true.
Proof.
  intros g Hr Ah Aw Hidx Rr Rc.
  destruct (jp2k_tile_bounds g jth jtw idx Hr Hidx) as (B1 & B2 & B3 & B4).
  pose proof Hr as (Hw & Hh & Htw & Hth & Hjth & Hjtw & Dw & Dh & Djh & Djw).
  destruct (py_range_ok (julr_of g jth jtw idx)
              (Z.min (julr_of g jth jtw idx + jth) (imageheight g)) (th g) Hth)
    as (ys & Eys).
  destruct (py_range_ok (julc_of g jth jtw idx)
              (Z.min (julc_of g jth jtw idx + jtw) (imagewidth g)) (tw g) Htw)
    as (xs & Exs).
  pose proof Eys as Eys'. pose proof Exs as Exs'.
  rewrite Z.min_l in Eys', Exs' by lia.
  destruct (aligned_scan_reaches (th g) jth (idx / (imagewidth g / jtw)) r ys
              Hth Hjth Ah Eys' Rr) as (y & Hy & Y1 & Y2).
  destruct (aligned_scan_reaches (tw g) jtw (idx mod (imagewidth g / jtw)) c xs
              Htw Hjtw Aw Exs' Rc) as (x & Hx & X1 & X2).
  fold (scan_rows g jth (julr_of g jth jtw idx)) in Eys.
  fold (scan_cols g jtw (julc_of g jth jtw idx)) in Exs.
  assert (Hs : scanned g jth jtw idx y x).
  { split; [assumption|]. split; eexists; split; eassumption. }
  destruct (fit_tile_scanned fp jth jtw idx y x Hr Hs) as (E & _ & Bc).
  fold g in E, Bc. cbv zeta in E, Bc.
  destruct (tile_origin_of_index fp x y Htw Dw) as (Tr & Tc);
    [fold g; lia|]. fold g in Tr, Tc.
  unfold covered. apply existsb_exists. eexists. split.
  - unfold sections. fold g. rewrite Eys, Exs. cbn [range_items].
    apply in_flat_map. exists y. split; [assumption|].
    apply in_flat_map. exists x. split; [assumption|].
    rewrite E. left. reflexivity.
  - cbn [ulr llr ulc urc]. rewrite Tr, Tc.
    fold (julr_of g jth jtw idx) in Y1, Y2.
    fold (julc_of g jth jtw idx) in X1, X2.
    rewrite !andb_true_iff, !Z.leb_le, !Z.ltb_lt. lia.
Qed.

Lemma same_tile_same_quotient (v o o' m : Z) :
  0 < m -> o * m <= v < o * m + m -> o' * m <= v < o' * m + m -> o = o'.
Proof. intros Hm H1 H2. nia. Qed.

Lemma sections_disjoint (fp : Tiff) (jth jtw idx y x y' x' r c : Z) :
  let g := geometry_of fp in
  regrid_ready g jth jtw ->
  scanned g jth jtw idx y x ->
  scanned g jth jtw idx y' x' ->
  (y, x) <> (y', x') ->
  forall f f',
    fit_tile g jth jtw (imagewidth g / tw g) (julr_of g jth jtw idx)
      (julc_of g jth jtw idx) (tile_index fp x y) = Ok f ->
    fit_tile g jth jtw (imagewidth g / tw g) (julr_of g jth jtw idx)
      (julc_of g jth jtw idx) (tile_index fp x' y') = Ok f' ->
    covered [f] r c = true -> covered [f'] r c = false.
Proof.
  intros g Hr Hs Hs' Hne f f' Ef Ef' Hc.
  destruct (fit_tile_scanned fp jth jtw idx y x Hr Hs) as (E & _ & _).
  destruct (fit_tile_scanned fp jth jtw idx y' x' Hr Hs') as (E' & _ & _).
  fold g in E, E'. cbv zeta in E, E'.
  rewrite E in Ef. rewrite E' in Ef'.
  inversion Ef; subst f; clear Ef E. inversion Ef'; subst f'; clear Ef' E'.
  pose proof (scanned_bounds g jth jtw idx y x Hr Hs) as B.
  pose proof (scanned_bounds g jth jtw idx y' x' Hr Hs') as B'.
  cbv zeta in B, B'.
  destruct B as (B1 & B2 & B3 & B4 & By & Bx & (i & Hi & Ey) & (j & Hj & Ex)).
  destruct B' as (_ & _ & _ & _ & By' & Bx' & (i' & Hi' & Ey') & (j' & Hj' & Ex')).
  pose proof Hr as (Hw & Hh & Htw & Hth & Hjth & Hjtw & Dw & Dh & Djh & Djw).
  destruct (tile_origin_of_index fp x y Htw Dw) as (Tr & Tc); [fold g; lia|].
  destruct (tile_origin_of_index fp x' y' Htw Dw) as (Tr' & Tc'); [fold g; lia|].
  fold g in Tr, Tc, Tr', Tc'.
  unfold covered in *. cbn [existsb ulr llr ulc urc] in *.
  rewrite orb_false_r in *. rewrite Tr, Tc in Hc. rewrite Tr', Tc'.
  rewrite !andb_true_iff, !Z.leb_le, !Z.ltb_lt in Hc.
  destruct Hc as (((R1 & R2) & C1) & C2).
  apply not_true_is_false. intros Hc'.
  rewrite !andb_true_iff, !Z.leb_le, !Z.ltb_lt in Hc'.
  destruct Hc' as (((R1' & R2') & C1') & C2').
  change (TileLength fp) with (th g) in *.
  change (TileWidth fp) with (tw g) in *.
  assert (Qy : y / th g = y' / th g)
    by (apply (same_tile_same_quotient r _ _ (th g)); lia).
  assert (Qx : x / tw g = x' / tw g)
    by (apply (same_tile_same_quotient c _ _ (tw g)); lia).
  rewrite Ey, Ey', !Z.div_add in Qy by lia.
  rewrite Ex, Ex', !Z.div_add in Qx by lia.
  apply Hne. rewrite Ey, Ey', Ex, Ex'. do 2 f_equal; f_equal; lia.
Qed.

(* ------------------------------------------------------------------ *)
(** ** Regridding: further properties of the scan *)

(** X1: every TIFF tile the scan visits does meet the JP2K tile being
    filled, and the section computed for it is not empty: it contains the
    scanned pixel itself. *)
Theorem scanned_tile_intersects (fp : Tiff) (jth jtw idx y x : Z) :
  let g := geometry_of fp in
  regrid_ready g jth jtw ->
  scanned g jth jtw idx y x ->
  footprints_intersect g jth jtw idx (tile_index fp x y) = true
  /\ exists f,
       fit_tile g jth jtw (imagewidth g / tw g) (julr_of g jth jtw idx)
         (julc_of g jth jtw idx) (tile_index fp x y) = Ok f
       /\ covered [f] y x = true.
Proof.
  intros g Hr Hs.
  destruct (fit_tile_scanned fp jth jtw idx y x Hr Hs) as (E & Br & Bc).
  fold g in E, Br, Bc. cbv zeta in E, Br, Bc.
  split.
  - unfold footprints_intersect.
    rewrite andb_true_iff, !Z.ltb_lt. lia.
  - eexists. split; [exact E|].
    unfold covered. cbn [existsb ulr llr ulc urc].
    rewrite orb_false_r, !andb_true_iff, !Z.leb_le, !Z.ltb_lt. lia.
Qed.

Lemma scanned_96x32 : scanned (geometry_of tiff_96x32) 32 16 2 32 0.
Proof.
  unfold scanned. split; [vm_compute; tauto|].
  split; eexists; (split; [vm_compute; reflexivity | vm_compute; tauto]).
Defined.

Lemma regrid_ready_96x32 : regrid_ready (geometry_of tiff_96x32) 32 16.
Proof.
  unfold regrid_ready. cbn. repeat split; try lia; solve_divide.
Defined.

Lemma scanned_tile_intersects_witness :
  footprints_intersect (geometry_of tiff_96x32) 32 16 2
    (tile_index tiff_96x32 0 32) = true
  /\ exists f,
       fit_tile (geometry_of tiff_96x32) 32 16
         (imagewidth (geometry_of tiff_96x32) / tw (geometry_of tiff_96x32))
         (julr_of (geometry_of tiff_96x32) 32 16 2)
         (julc_of (geometry_of tiff_96x32) 32 16 2)
         (tile_index tiff_96x32 0 32) = Ok f
       /\ covered [f] 32 0 = true.
Proof.
  apply (scanned_tile_intersects tiff_96x32 32 16 2 32 0).
  - exact regrid_ready_96x32.
  - exact scanned_96x32.
Defined.

Lemma regrid_ready_96x32_whole : regrid_ready (geometry_of tiff_96x32) 96 32.
Proof.
  unfold regrid_ready. cbn. repeat split; try lia; solve_divide.
Defined.

(** X2: when in either axis one tile size is a multiple of the other, every
    pixel of a JP2K tile lies in one of the sections computed while the tile
    is filled: the scan leaves no gap. *)
Theorem sections_cover_when_aligned (fp : Tiff) (jth jtw idx r c : Z) :
  let g := geometry_of fp in
  regrid_ready g jth jtw ->
  aligned (th g) jth -> aligned (tw g) jtw ->
  In idx (get_tilewriters ((imageheight g, imagewidth g, spp g), (jth, jtw))) ->
  julr_of g jth jtw idx <= r < julr_of g jth jtw idx + jth ->
  julc_of g jth jtw idx <= c < julc_of g jth jtw idx + jtw ->
  exists f, In f (sections fp jth jtw idx) /\ covered [f] r c = true.
Proof.
  intros g Hr Ah Aw Hidx Rr Rc.
  pose proof (sections_cover_aligned fp jth jtw idx r c Hr Ah Aw Hidx Rr Rc) as H.
  unfold covered in H. apply existsb_exists in H. destruct H as (f & Hf & Ht).
  exists f. split; [assumption|]. unfold covered. cbn [existsb].
  rewrite Ht. reflexivity.
Qed.

Lemma sections_cover_when_aligned_witness :
  exists f, In f (sections tiff_96x32 96 32 0) /\ covered [f] 50 20 = true.
Proof.
  apply (sections_cover_when_aligned tiff_96x32 96 32 0 50 20).
  - exact regrid_ready_96x32_whole.
  - left. solve_divide.
  - left. solve_divide.
  - vm_compute. tauto.
  - vm_compute. split; [discriminate | reflexivity].
  - vm_compute. split; [discriminate | reflexivity].
Defined.

Lemma scanned_96x32_whole (y x : Z) :
  In y [0; 48] -> In x [0; 16] ->
  scanned (geometry_of tiff_96x32) 96 32 0 y x.
Proof.
  intros Hy Hx. unfold scanned. split; [vm_compute; tauto|].
  split; eexists; (split; [vm_compute; reflexivity | assumption]).
Defined.

(** X3: whatever the two tile sizes, the sections computed at two different
    scanned positions of one JP2K tile share no pixel: a later copy never
    overwrites an earlier one. *)
Theorem sections_never_overlap (fp : Tiff) (jth jtw idx y x y' x' r c : Z) :
  let g := geometry_of fp in
  regrid_ready g jth jtw ->
  scanned g jth jtw idx y x ->
  scanned g jth jtw idx y' x' ->
  (y, x) <> (y', x') ->
  exists f f',
    fit_tile g jth jtw (imagewidth g / tw g) (julr_of g jth jtw idx)
      (julc_of g jth jtw idx) (tile_index fp x y) = Ok f
    /\ fit_tile g jth jtw (imagewidth g / tw g) (julr_of g jth jtw idx)
         (julc_of g jth jtw idx) (tile_index fp x' y') = Ok f'
    /\ covered [f] r c && covered [f'] r c = false.
Proof.
  intros g Hr Hs Hs' Hne.
  destruct (fit_tile_scanned fp jth jtw idx y x Hr Hs) as (E & _ & _).
  destruct (fit_tile_scanned fp jth jtw idx y' x' Hr Hs') as (E' & _ & _).
  fold g in E, E'. cbv zeta in E, E'.
  do 2 eexists. split; [exact E|]. split; [exact E'|].
  match goal with
  | |- covered [?f] r c && _ = false =>
      destruct (covered [f] r c) eqn:Hc; [|reflexivity]
  end.
  cbn [andb].
  exact (sections_disjoint fp jth jtw idx y x y' x' r c Hr Hs Hs' Hne _ _ E E' Hc).
Qed.

Lemma sections_never_overlap_witness :
  exists f f',
    fit_tile (geometry_of tiff_96x32) 96 32
      (imagewidth (geometry_of tiff_96x32) / tw (geometry_of tiff_96x32))
      (julr_of (geometry_of tiff_96x32) 96 32 0)
      (julc_of (geometry_of tiff_96x32) 96 32 0)
      (tile_index tiff_96x32 0 0) = Ok f
    /\ fit_tile (geometry_of tiff_96x32) 96 32
         (imagewidth (geometry_of tiff_96x32) / tw (geometry_of tiff_96x32))
         (julr_of (geometry_of tiff_96x32) 96 32 0)
         (julc_of (geometry_of tiff_96x32) 96 32 0)
         (tile_index tiff_96x32 16 48) = Ok f'
    /\ covered [f] 10 5 && covered [f'] 10 5 = false.
Proof.
  apply (sections_never_overlap tiff_96x32 96 32 0 0 0 48 16 10 5).
  - exact regrid_ready_96x32_whole.
  - apply scanned_96x32_whole; cbn; tauto.
  - apply scanned_96x32_whole; cbn; tauto.
  - discriminate.
Defined.

(* ------------------------------------------------------------------ *)
(** ** Regridding: what the destination sees *)

(** A loop whose body always succeeds and keeps an invariant of the loop
    variables, seen through an observation of the events it adds. *)
Lemma for_each_observed {B S X} (view : Event -> list X) (I : S -> Prop)
  (f : B -> list X) (body : B -> S -> Run S) (l : list B) :
  (forall b s tr, In b l -> I s ->
                  exists s' evs, body b s tr = (tr ++ evs, Ok s') /\ I s'
                                 /\ flat_map view evs = f b) ->
  forall s tr, I s ->
               exists s' evs, for_each l body s tr = (tr ++ evs, Ok s') /\ I s'
                              /\ flat_map view evs = flat_map f l.
Proof.
  induction l as [|b l IH]; intros Hb s tr Hs.
  - exists s, []. cbn. rewrite app_nil_r. repeat split; assumption.
  - destruct (Hb b s tr (or_introl eq_refl) Hs) as (s1 & e1 & E1 & H1 & O1).
    destruct (IH (fun b' s' tr' Hin => Hb b' s' tr' (or_intror Hin)) s1
                 (tr ++ e1) H1) as (s2 & e2 & E2 & H2 & O2).
    exists s2, (e1 ++ e2). split; [|split; [assumption|]].
    + cbn [for_each]. unfold bind. rewrite E1, E2, <- app_assoc. reflexivity.
    + rewrite flat_map_app, O1, O2. reflexivity.
Qed.

Lemma flat_map_flat_map_nil {A B C} (view : B -> list C) (f : A -> list B)
  (l : list A) :
  (forall a, flat_map view (f a) = []) -> flat_map view (flat_map f l) = [].
Proof.
  intros H. induction l as [|a l IH]; [reflexivity|].
  cbn [flat_map]. rewrite flat_map_app, H, IH. reflexivity.
Qed.

Lemma flat_map_single {A B} (f : A -> B) (l : list A) :
  flat_map (fun a => [f a]) l = map f l.
Proof.
  induction l as [|a l IH]; [reflexivity|]. cbn [flat_map map app].
  rewrite IH. reflexivity.
Qed.

Lemma fill_events_destination_calls (fp : Tiff) (jth jtw idx : Z) :
  destination_calls (fill_events fp jth jtw idx) = [].
Proof.
  unfold destination_calls, fill_events.
  apply flat_map_flat_map_nil. intros y.
  apply flat_map_flat_map_nil. intros x. reflexivity.
Qed.

Lemma regrid_destination_calls (fp : Tiff) (jth jtw : Z) (tr : list Event) :
  let g := geometry_of fp in
  regrid_ready g jth jtw -> 0 <= spp g ->
  exists evs,
    regrid fp g (jth, jtw) tr = (tr ++ evs, Ok tt)
    /\ destination_calls evs
       = TiledCreated (imageheight g, imagewidth g, spp g) (jth, jtw)
         :: map (fun i => TileWritten i (jth, jtw, spp g))
              (indices (imageheight g / jth * (imagewidth g / jtw))).
Proof.
  intros g Hr Hspp.
  pose proof Hr as (Hw & Hh & Htw & Hth & Hjth & Hjtw & Dw & Dh & Djh & Djw).
  destruct (np_zeros_ok (th g) (tw g) (spp g)) as (d1 & E1); try lia.
  destruct (np_zeros_ok jth jtw (spp g)) as (d2 & E2); try lia.
  unfold regrid, py_floordiv.
  rewrite (proj2 (Z.eqb_neq jth 0)), (proj2 (Z.eqb_neq jtw 0)),
    (proj2 (Z.eqb_neq (th g) 0)), (proj2 (Z.eqb_neq (tw g) 0)) by lia.
  rewrite E1, E2.
  unfold bind at 1. unfold lift at 1.
  unfold bind at 1. unfold Jp2k_tiled, bind at 1, emit at 1, ret at 1.
  do 6 (unfold bind at 1; unfold lift at 1).
  unfold bind at 1.
  destruct (for_each_observed destination_call
              (buffers_shaped g jth jtw)
              (fun i => [TileWritten i (jth, jtw, spp g)])
              (fill_tile fp g jth jtw (imagewidth g / jtw) (imagewidth g / tw g))
              (get_tilewriters ((imageheight g, imagewidth g, spp g), (jth, jtw))))
    with (s := ({| nd_shape := (jth, jtw, spp g); nd_data := d2 |},
                {| nd_shape := (th g, tw g, spp g); nd_data := d1 |}))
         (tr := tr ++ [EvJp2kTiled (imageheight g, imagewidth g, spp g) (jth, jtw)])
    as (s' & evs & E & _ & O).
  - intros idx s t Hidx Hs.
    destruct (fill_tile_ok fp jth jtw idx s t Hr Hidx Hs) as (s1 & Es & Hs1).
    fold g in Es. do 2 eexists. split; [exact Es|]. split; [assumption|].
    rewrite flat_map_app.
    fold (destination_calls (fill_events fp jth jtw idx)).
    rewrite fill_events_destination_calls. cbn.
    destruct Hs1 as (Sj & _). rewrite Sj. reflexivity.
  - split; reflexivity.
  - exists ([EvJp2kTiled (imageheight g, imagewidth g, spp g) (jth, jtw)] ++ evs).
    unfold ret at 1. rewrite E. split; [rewrite <- app_assoc; reflexivity|].
    unfold destination_calls. rewrite flat_map_app, O. cbn [flat_map destination_call app].
    f_equal. unfold get_tilewriters.
    rewrite (ceil_div_exact _ _ Hjth Djh), (ceil_div_exact _ _ Hjtw Djw).
    apply flat_map_single.
Qed.

(** X4: under the preconditions of the regridding strategy the destination
    is created once, with the shape of the image and the requested tile
    size, and then every destination tile 0 .. n-1 is written exactly once,
    in index order, each with the requested tile shape; nothing else reaches
    the destination. *)
Theorem regrid_writes_each_tile_once (self : Tiff2Jp2k) (fp : Tiff)
  (jth jtw : Z) :
  regrid_preconditions self fp jth jtw ->
  snd (run self fp []) = Ok tt
  /\ destination_calls (fst (run self fp []))
     = TiledCreated (ImageLength fp, ImageWidth fp, SamplesPerPixel fp) (jth, jtw)
       :: map (fun i => TileWritten i (jth, jtw, SamplesPerPixel fp))
            (indices (ImageLength fp / jth * (ImageWidth fp / jtw))).
Proof.
  intros Hp. pose proof Hp as (Ht & Hts & Hr & _ & _ & Hspp).
  rewrite (run_tiled_eq self fp [] Ht). unfold bind.
  rewrite (select_regrid self fp jth jtw _ Hp). rewrite Hts.
  destruct (regrid_destination_calls fp jth jtw
              (([] ++ [EvIsTiled]) ++ geometry_events) Hr Hspp)
    as (evs & E & O).
  rewrite E. cbn [fst snd]. split; [reflexivity|].
  unfold destination_calls in *. rewrite flat_map_app, O. reflexivity.
Qed.

Lemma regrid_writes_each_tile_once_witness :
  snd (run {| tilesize := Some (32, 16) |} tiff_96x32 []) = Ok tt
  /\ destination_calls (fst (run {| tilesize := Some (32, 16) |} tiff_96x32 []))
     = TiledCreated
         (ImageLength tiff_96x32, ImageWidth tiff_96x32, SamplesPerPixel tiff_96x32)
         (32, 16)
       :: map (fun i => TileWritten i (32, 16, SamplesPerPixel tiff_96x32))
            (indices (ImageLength tiff_96x32 / 32 * (ImageWidth tiff_96x32 / 16))).
Proof.
  apply (regrid_writes_each_tile_once {| tilesize := Some (32, 16) |}
           tiff_96x32 32 16).
  unfold regrid_preconditions, regrid_ready. cbn.
  repeat split; try lia; solve_divide.
Defined.

(* ------------------------------------------------------------------ *)
(** ** Regridding: what is asked of the source *)

Lemma tile_index_in_grid (fp : Tiff) (x y : Z) :
  let g := geometry_of fp in
  0 < tw g -> 0 < th g -> (tw g | imagewidth g) -> (th g | imageheight g) ->
  0 <= x < imagewidth g -> 0 <= y < imageheight g ->
  0 <= tile_index fp x y < imageheight g / th g * (imagewidth g / tw g).
Proof.
  intros g Htw Hth Dw Dh Hx Hy. unfold tile_index.
  change (TileWidth fp) with (tw g). change (ImageWidth fp) with (imagewidth g).
  change (TileLength fp) with (th g).
  rewrite (ceil_div_exact _ _ Htw Dw).
  pose proof (divide_div_mul _ _ Htw Dw) as Mw.
  pose proof (divide_div_mul _ _ Hth Dh) as Mh.
  assert (Cx : 0 <= x / tw g < imagewidth g / tw g).
  { split; [apply Z.div_pos; lia|]. apply Z.div_lt_upper_bound; lia. }
  assert (Cy : 0 <= y / th g < imageheight g / th g).
  { split; [apply Z.div_pos; lia|]. apply Z.div_lt_upper_bound; lia. }
  nia.
Qed.

Lemma fill_events_source_calls (fp : Tiff) (jth jtw idx : Z) (c : SourceCall) :
  let g := geometry_of fp in
  regrid_ready g jth jtw ->
  In idx (get_tilewriters ((imageheight g, imagewidth g, spp g), (jth, jtw))) ->
  In c (source_calls (fill_events fp jth jtw idx)) ->
  source_call_in_range fp c.
Proof.
  intros g Hr Hidx Hc.
  pose proof Hr as (Hw & Hh & Htw & Hth & Hjth & Hjtw & Dw & Dh & Djh & Djw).
  unfold source_calls, fill_events in Hc. fold g in Hc.
  apply in_flat_map in Hc. destruct Hc as (ev & Hev & Hc).
  apply in_flat_map in Hev. destruct Hev as (y & Hy & Hev).
  apply in_flat_map in Hev. destruct Hev as (x & Hx & Hev).
  assert (Hs : scanned g jth jtw idx y x).
  { split; [assumption|]. split.
    - destruct (scan_rows g jth (julr_of g jth jtw idx)) as [ys|] eqn:E;
        [|contradiction]. exists ys. split; [reflexivity|assumption].
    - destruct (scan_cols g jtw (julc_of g jth jtw idx)) as [xs|] eqn:E;
        [|contradiction]. exists xs. split; [reflexivity|assumption]. }
  pose proof (scanned_bounds g jth jtw idx y x Hr Hs) as B. cbv zeta in B.
  destruct B as (B1 & B2 & B3 & B4 & By & Bx & _).
  assert (Rx : 0 <= x < imagewidth g) by lia.
  assert (Ry : 0 <= y < imageheight g) by lia.
  destruct Hev as [<- | [<- | []]]; cbn in Hc; destruct Hc as [<- | []].
  - split; assumption.
  - exact (tile_index_in_grid fp x y Htw Hth Dw Dh Rx Ry).
Qed.

Lemma regrid_source_calls (fp : Tiff) (jth jtw : Z) (tr : list Event) :
  let g := geometry_of fp in
  regrid_ready g jth jtw -> 0 <= spp g ->
  exists evs,
    regrid fp g (jth, jtw) tr = (tr ++ evs, Ok tt)
    /\ source_calls evs
       = flat_map (fun idx => source_calls (fill_events fp jth jtw idx))
           (get_tilewriters ((imageheight g, imagewidth g, spp g), (jth, jtw))).
Proof.
  intros g Hr Hspp.
  pose proof Hr as (Hw & Hh & Htw & Hth & Hjth & Hjtw & Dw & Dh & Djh & Djw).
  destruct (np_zeros_ok (th g) (tw g) (spp g)) as (d1 & E1); try lia.
  destruct (np_zeros_ok jth jtw (spp g)) as (d2 & E2); try lia.
  unfold regrid, py_floordiv.
  rewrite (proj2 (Z.eqb_neq jth 0)), (proj2 (Z.eqb_neq jtw 0)),
    (proj2 (Z.eqb_neq (th g) 0)), (proj2 (Z.eqb_neq (tw g) 0)) by lia.
  rewrite E1, E2.
  unfold bind at 1. unfold lift at 1.
  unfold bind at 1. unfold Jp2k_tiled, bind at 1, emit at 1, ret at 1.
  do 6 (unfold bind at 1; unfold lift at 1).
  unfold bind at 1.
  destruct (for_each_observed source_call
              (buffers_shaped g jth jtw)
              (fun idx => source_calls (fill_events fp jth jtw idx))
              (fill_tile fp g jth jtw (imagewidth g / jtw) (imagewidth g / tw g))
              (get_tilewriters ((imageheight g, imagewidth g, spp g), (jth, jtw))))
    with (s := ({| nd_shape := (jth, jtw, spp g); nd_data := d2 |},
                {| nd_shape := (th g, tw g, spp g); nd_data := d1 |}))
         (tr := tr ++ [EvJp2kTiled (imageheight g, imagewidth g, spp g) (jth, jtw)])
    as (s' & evs & E & _ & O).
  - intros idx s t Hidx Hs.
    destruct (fill_tile_ok fp jth jtw idx s t Hr Hidx Hs) as (s1 & Es & Hs1).
    fold g in Es. do 2 eexists. split; [exact Es|]. split; [assumption|].
    rewrite flat_map_app. cbn. rewrite app_nil_r. reflexivity.
  - split; reflexivity.
  - exists ([EvJp2kTiled (imageheight g, imagewidth g, spp g) (jth, jtw)] ++ evs).
    unfold ret at 1. rewrite E. split; [rewrite <- app_assoc; reflexivity|].
    unfold source_calls at 1. rewrite flat_map_app, O. reflexivity.
Qed.

(** X5: under the preconditions of the regridding strategy, [run] never
    asks the source for anything outside the image: every pixel handed to
    [computeTile] lies inside the image, and every tile number handed to
    [readEncodedTile] is one of the tiles of the TIFF grid. *)
Theorem regrid_source_calls_in_range (self : Tiff2Jp2k) (fp : Tiff)
  (jth jtw : Z) :
  regrid_preconditions self fp jth jtw ->
  Forall (source_call_in_range fp) (source_calls (fst (run self fp []))).
Proof.
  intros Hp. pose proof Hp as (Ht & Hts & Hr & _ & _ & Hspp).
  rewrite (run_tiled_eq self fp [] Ht). unfold bind.
  rewrite (select_regrid self fp jth jtw _ Hp). rewrite Hts.
  destruct (regrid_source_calls fp jth jtw
              (([] ++ [EvIsTiled]) ++ geometry_events) Hr Hspp)
    as (evs & E & O).
  rewrite E. cbn [fst]. unfold source_calls at 1.
  rewrite flat_map_app. fold (source_calls evs). rewrite O.
  cbn [app flat_map geometry_events source_call].
  apply Forall_forall. intros c Hc.
  apply in_flat_map in Hc. destruct Hc as (idx & Hidx & Hc).
  exact (fill_events_source_calls fp jth jtw idx c Hr Hidx Hc).
Qed.

Lemma regrid_source_calls_in_range_witness :
  Forall (source_call_in_range tiff_96x32)
    (source_calls (fst (run {| tilesize := Some (32, 16) |} tiff_96x32 []))).
Proof.
  apply (regrid_source_calls_in_range {| tilesize := Some (32, 16) |}
           tiff_96x32 32 16).
  unfold regrid_preconditions, regrid_ready. cbn.
  repeat split; try lia; solve_divide.
Defined.

(* ------------------------------------------------------------------ *)
(** ** Edges of the strategy selection *)

Lemma select_zero_tile_height (self : Tiff2Jp2k) (fp : Tiff) (g : Geometry)
  (jtw : Z) (tr : list Event) :
  0 < imagewidth g -> 0 < tw g -> 0 < th g ->
  evenly_tiled_uint8_spec g ->
  tilesize self = Some (0, jtw) ->
  select_strategy self fp g tr = (tr, Raise ZeroDivisionError).
Proof.
  intros Hw Htw Hth Hev Hts.
  pose proof (evenly_tiled_uint8_true g tr Htw Hth Hev) as Ee.
  unfold select_strategy. unfold bind at 1.
  rewrite (whole_image_guard_false fp g tr Hw Htw (proj1 Hev)).
  unfold bind at 1. rewrite (andR_eq _ _ _ _ _ Ee). rewrite Hts.
  unfold ret at 1. cbv iota beta. unfold bind.
  assert (X1 : (evenly_tiled_uint8 g &&& ret true) tr = (tr, Ok true))
    by (rewrite (andR_eq _ _ _ _ _ Ee); reflexivity).
  assert (X2 : (evenly_tiled_uint8 g &&& ret true
                &&& divides_evenly (imageheight g) 0) tr
               = (tr, Raise ZeroDivisionError))
    by (rewrite (andR_eq _ _ _ _ _ X1), divides_evenly_eq; reflexivity).
  rewrite (andR_eq _ _ _ _ _ X2). reflexivity.
Qed.

Lemma select_zero_tile_width (self : Tiff2Jp2k) (fp : Tiff) (g : Geometry)
  (jth : Z) (tr : list Event) :
  0 < imagewidth g -> 0 < tw g -> 0 < th g ->
  evenly_tiled_uint8_spec g ->
  tilesize self = Some (jth, 0) ->
  jth <> 0 ->
  select_strategy self fp g tr =
  (tr, if imageheight g mod jth =? 0 then Raise ZeroDivisionError else Ok None).
Proof.
  intros Hw Htw Hth Hev Hts Hj.
  pose proof (evenly_tiled_uint8_true g tr Htw Hth Hev) as Ee.
  unfold select_strategy. unfold bind at 1.
  rewrite (whole_image_guard_false fp g tr Hw Htw (proj1 Hev)).
  unfold bind at 1. rewrite (andR_eq _ _ _ _ _ Ee). rewrite Hts.
  unfold ret at 1. cbv iota beta. unfold bind.
  assert (X1 : (evenly_tiled_uint8 g &&& ret true) tr = (tr, Ok true))
    by (rewrite (andR_eq _ _ _ _ _ Ee); reflexivity).
  assert (X2 : (evenly_tiled_uint8 g &&& ret true
                &&& divides_evenly (imageheight g) jth) tr
               = (tr, Ok (imageheight g mod jth =? 0))).
  { rewrite (andR_eq _ _ _ _ _ X1), divides_evenly_eq.
    rewrite (proj2 (Z.eqb_neq jth 0)) by assumption. reflexivity. }
  rewrite (andR_eq _ _ _ _ _ X2).
  destruct (imageheight g mod jth =? 0); [|reflexivity].
  rewrite divides_evenly_eq. reflexivity.
Qed.

(** X6: on an evenly tiled 8-bit unsigned source, a requested tile size with
    a zero in it is not rejected as such.  A zero height makes [run] raise
    ZeroDivisionError; a zero width does so only when the requested height
    divides the image height, and otherwise [run] returns normally having
    done nothing.  In each case the destination is never created. *)
Theorem zero_tilesize_behaviour (self : Tiff2Jp2k) (fp : Tiff) (jth jtw : Z) :
  tiled fp = true ->
  0 < ImageWidth fp -> 0 < TileWidth fp -> 0 < TileLength fp ->
  evenly_tiled_uint8_spec (geometry_of fp) ->
  tilesize self = Some (jth, jtw) ->
  jth = 0 \/ jtw = 0 ->
  fst (run self fp []) = [EvIsTiled] ++ geometry_events
  /\ snd (run self fp [])
     = (if jth =? 0 then Raise ZeroDivisionError
        else if ImageLength fp mod jth =? 0 then Raise ZeroDivisionError
             else Ok tt).
Proof.
  intros Ht Hw Htw Hth Hev Hts Hz.
  rewrite (run_tiled_eq self fp [] Ht). unfold bind.
  destruct (Z.eqb_spec jth 0) as [->|Hj].
  - rewrite (select_zero_tile_height self fp (geometry_of fp) jtw _
               Hw Htw Hth Hev Hts).
    split; reflexivity.
  - destruct Hz as [Hz|Hz]; [contradiction|]. subst jtw.
    rewrite (select_zero_tile_width self fp (geometry_of fp) jth _
               Hw Htw Hth Hev Hts Hj).
    cbn [imageheight geometry_of].
    destruct (ImageLength fp mod jth =? 0); split; reflexivity.
Qed.

Lemma evenly_tiled_512_256 : evenly_tiled_uint8_spec (geometry_of tiff_512_256).
Proof.
  unfold evenly_tiled_uint8_spec. cbn. repeat split; solve_divide.
Defined.

Lemma zero_tilesize_behaviour_witness :
  fst (run {| tilesize := Some (100, 0) |} tiff_512_256 [])
  = [EvIsTiled] ++ geometry_events
  /\ snd (run {| tilesize := Some (100, 0) |} tiff_512_256 [])
     = (if 100 =? 0 then Raise ZeroDivisionError
        else if ImageLength tiff_512_256 mod 100 =? 0 then Raise ZeroDivisionError
             else Ok tt).
Proof.
  apply (zero_tilesize_behaviour {| tilesize := Some (100, 0) |}
           tiff_512_256 100 0);
    try reflexivity.
  - exact evenly_tiled_512_256.
  - right. reflexivity.
Defined.

(** X7: when the whole-image guard holds, a requested tile size plays no
    part: [run] does the same whatever [tilesize] is, and the destination is
    handed one image and is never tiled. *)
Theorem whole_image_ignores_tilesize (self self' : Tiff2Jp2k) (fp : Tiff) :
  tiled fp = true ->
  whole_image_guard fp (geometry_of fp) ->
  run self fp [] = run self' fp []
  /\ exists shape, destination_calls (fst (run self fp []))
                   = [WholeImageWritten shape].
Proof.
  intros Ht Hg.
  rewrite (run_whole_image self fp Ht Hg), (run_whole_image self' fp Ht Hg).
  split; [reflexivity|]. eexists. reflexivity.
Qed.

Lemma whole_image_ignores_tilesize_witness :
  run {| tilesize := Some (128, 128) |} tiff_rgb_1x1 []
  = run {| tilesize := None |} tiff_rgb_1x1 []
  /\ exists shape,
       destination_calls (fst (run {| tilesize := Some (128, 128) |} tiff_rgb_1x1 []))
       = [WholeImageWritten shape].
Proof.
  apply (whole_image_ignores_tilesize {| tilesize := Some (128, 128) |}
           {| tilesize := None |} tiff_rgb_1x1).
  - reflexivity.
  - unfold whole_image_guard. cbn. repeat split; lia.
Defined.

Lemma whole_image_guard_trace (fp : Tiff) (g : Geometry) (tr : list Event) :
  exists c evs,
    (ret (tw g >? imagewidth g) &&& ret (th g >? imageheight g)
     &&& RGBAImageOK fp) tr = (tr ++ evs, Ok c)
    /\ (c = true <-> whole_image_guard fp g)
    /\ destination_calls evs = [].
Proof.
  unfold andR, RGBAImageOK, emit, whole_image_guard. unfold bind, ret.
  rewrite !Z.gtb_ltb.
  destruct (Z.ltb_spec (imagewidth g) (tw g)), (Z.ltb_spec (imageheight g) (th g)).
  - exists (rgba_ok fp), [EvRGBAImageOK].
    split; [reflexivity|]. split; [intuition lia | reflexivity].
  - exists false, []. rewrite app_nil_r. split; [reflexivity|].
    split; [split; [discriminate | intros; exfalso; lia] | reflexivity].
  - exists false, []. rewrite app_nil_r. split; [reflexivity|].
    split; [split; [discriminate | intros; exfalso; lia] | reflexivity].
  - exists false, []. rewrite app_nil_r. split; [reflexivity|].
    split; [split; [discriminate | intros; exfalso; lia] | reflexivity].
Qed.

(** With tile sizes that are not zero the shared conditions raise nothing. *)
Lemma evenly_tiled_uint8_bool (g : Geometry) (tr : list Event) :
  tw g <> 0 -> th g <> 0 ->
  exists b, evenly_tiled_uint8 g tr = (tr, Ok b)
            /\ (b = true <-> evenly_tiled_uint8_spec g).
Proof.
  intros Htw Hth. unfold evenly_tiled_uint8_spec.
  pose proof (Z.mod_divide (imagewidth g) (tw g) Htw) as Dw.
  pose proof (Z.mod_divide (imageheight g) (th g) Hth) as Dh.
  pose proof (SampleFormat_eqb_eq (sf g) UINT) as Es.
  pose proof (Z.eqb_spec (imagewidth g mod tw g) 0) as S2.
  pose proof (Z.eqb_spec (imageheight g mod th g) 0) as S4.
  pose proof (Z.eqb_spec (bps g) 8) as S5.
  unfold evenly_tiled_uint8, andR, divides_evenly, lift, py_mod.
  rewrite (proj2 (Z.eqb_neq (tw g) 0)), (proj2 (Z.eqb_neq (th g) 0))
    by assumption.
  unfold bind, ret.
  destruct S2, S4, S5, (SampleFormat_eqb (sf g) UINT);
    (eexists; split; [reflexivity|];
     split; [try discriminate; intros _; intuition idtac
            | try reflexivity; intros (? & ? & ? & ?); exfalso;
              intuition congruence]).
Qed.

(** X8: on a tiled source with tile sizes that are not zero, when none of
    the three guards holds [run] does not fail: it returns normally, and
    the destination has not been created or written. *)
Theorem no_guard_returns_silently (self : Tiff2Jp2k) (fp : Tiff) :
  let g := geometry_of fp in
  tiled fp = true ->
  tw g <> 0 -> th g <> 0 ->
  (forall jth jtw, tilesize self = Some (jth, jtw) -> jth <> 0 /\ jtw <> 0) ->
  ~ whole_image_guard fp g ->
  ~ identity_copy_guard self g ->
  ~ regrid_guard self g ->
  snd (run self fp []) = Ok tt
  /\ destination_calls (fst (run self fp [])) = [].
Proof.
  intros g Ht Htw Hth Hnz G1 G2 G3.
  rewrite (run_tiled_eq self fp [] Ht). fold g. cbn [app].
  set (tr := EvIsTiled :: geometry_events).
  destruct (whole_image_guard_trace fp g tr) as (c & evs & E1 & H1 & D1).
  assert (c = false) by (destruct c; [exfalso; tauto | reflexivity]). subst c.
  destruct (evenly_tiled_uint8_bool g (tr ++ evs) Htw Hth) as (b & Ee & Hb).
  assert (Sel : select_strategy self fp g tr = (tr ++ evs, Ok None)).
  { unfold select_strategy. unfold bind at 1. rewrite E1.
    unfold bind at 1. rewrite (andR_eq _ _ _ _ _ Ee).
    destruct b.
    - assert (Hev : evenly_tiled_uint8_spec g) by (apply Hb; reflexivity).
      destruct (tilesize self) as [[jth jtw]|] eqn:Ets.
      2:{ exfalso. apply G2. split; assumption. }
      destruct (Hnz jth jtw eq_refl) as (Hj1 & Hj2).
      unfold ret at 1. cbv iota beta. unfold bind.
      assert (X1 : (evenly_tiled_uint8 g &&& ret true) (tr ++ evs)
                   = (tr ++ evs, Ok true))
        by (rewrite (andR_eq _ _ _ _ _ Ee); reflexivity).
      assert (X2 : (evenly_tiled_uint8 g &&& ret true
                    &&& divides_evenly (imageheight g) jth) (tr ++ evs)
                   = (tr ++ evs, Ok (imageheight g mod jth =? 0))).
      { rewrite (andR_eq _ _ _ _ _ X1), divides_evenly_eq.
        rewrite (proj2 (Z.eqb_neq jth 0)) by assumption. reflexivity. }
      rewrite (andR_eq _ _ _ _ _ X2).
      destruct (Z.eqb_spec (imageheight g mod jth) 0) as [M1|M1]; [|reflexivity].
      rewrite divides_evenly_eq.
      rewrite (proj2 (Z.eqb_neq jtw 0)) by assumption.
      destruct (Z.eqb_spec (imagewidth g mod jtw) 0) as [M2|M2]; [|reflexivity].
      exfalso. apply G3. split; [assumption|].
      exists jth, jtw. split; [assumption|].
      split; apply Z.mod_divide; assumption.
    - cbv iota beta. unfold ret at 1. cbv iota beta. unfold bind.
      match goal with
      | |- context [(evenly_tiled_uint8 g &&& ?a &&& ?b0 &&& ?c0) (tr ++ evs)] =>
          assert (X1 : (evenly_tiled_uint8 g &&& a) (tr ++ evs)
                       = (tr ++ evs, Ok false))
            by (rewrite (andR_eq _ _ _ _ _ Ee); reflexivity);
          assert (X2 : (evenly_tiled_uint8 g &&& a &&& b0) (tr ++ evs)
                       = (tr ++ evs, Ok false))
            by (rewrite (andR_eq _ _ _ _ _ X1); reflexivity);
          rewrite (andR_eq _ _ _ _ _ X2)
      end.
      reflexivity. }
  unfold bind. rewrite Sel. cbn [fst snd ret]. split; [reflexivity|].
  unfold destination_calls in *. rewrite flat_map_app, D1. reflexivity.
Qed.

Lemma no_guard_returns_silently_witness :
  snd (run {| tilesize := Some (100, 100) |} tiff_512_256 []) = Ok tt
  /\ destination_calls (fst (run {| tilesize := Some (100, 100) |} tiff_512_256 []))
     = [].
Proof.
  apply (no_guard_returns_silently {| tilesize := Some (100, 100) |} tiff_512_256).
  - reflexivity.
  - cbn. lia.
  - cbn. lia.
  - intros jth jtw E. inversion E. lia.
  - unfold whole_image_guard. cbn. lia.
  - unfold identity_copy_guard. cbn. intros [_ E]. discriminate.
  - unfold regrid_guard. cbn. intros (_ & jth & jtw & E & [k Hk] & _).
    inversion E; subst. lia.
Defined.

(* ------------------------------------------------------------------ *)
(** ** Slices of nested lists *)

Lemma nth_cut {A} (s n : Z) (l : list A) (k : nat) (d : A) :
  nth k (cut s n l) d
  = if (k <? Z.to_nat n)%nat then nth (Z.to_nat s + k) l d else d.
Proof. unfold cut. rewrite nth_firstn, nth_skipn. reflexivity. Qed.

Lemma length_cut {A} (s n : Z) (l : list A) :
  (Z.to_nat s + Z.to_nat n <= List.length l)%nat ->
  List.length (cut s n l) = Z.to_nat n.
Proof.
  intros H. unfold cut. rewrite length_firstn, length_skipn. lia.
Qed.

Lemma length_splice {A} (s : Z) (v l : list A) :
  (Z.to_nat s + List.length v <= List.length l)%nat ->
  List.length (splice s v l) = List.length l.
Proof.
  intros H. unfold splice.
  rewrite !length_app, length_firstn, length_skipn. lia.
Qed.

Lemma nth_splice {A} (s : Z) (v l : list A) (k : nat) (d : A) :
  (Z.to_nat s + List.length v <= List.length l)%nat ->
  nth k (splice s v l) d
  = if ((Z.to_nat s <=? k) && (k <? Z.to_nat s + List.length v))%nat
    then nth (k - Z.to_nat s) v d
    else nth k l d.
Proof.
  intros H. unfold splice.
  assert (Lf : List.length (firstn (Z.to_nat s) l) = Z.to_nat s)
    by (rewrite length_firstn; lia).
  destruct (Nat.leb_spec (Z.to_nat s) k) as [H1|H1]; cbn [andb].
  - rewrite app_nth2 by lia. rewrite Lf.
    destruct (Nat.ltb_spec k (Z.to_nat s + List.length v)) as [H2|H2].
    + rewrite app_nth1 by lia. reflexivity.
    + rewrite app_nth2 by lia. rewrite nth_skipn. f_equal. lia.
  - rewrite app_nth1 by lia. rewrite nth_firstn.
    rewrite (proj2 (Nat.ltb_lt _ _)) by lia. reflexivity.
Qed.

Lemma stretch_same {A} (n : Z) (l : list A) : stretch n n l = l.
Proof. unfold stretch. rewrite Z.eqb_refl. reflexivity. Qed.

Lemma slice_start_inside (a b n : Z) :
  0 <= a <= b -> b <= n -> slice_start (a, b) n = a.
Proof.
  intros Hab Hb. unfold slice_start, adjust_index. cbn [fst].
  rewrite (proj2 (Z.ltb_ge a 0)) by lia. lia.
Qed.

Lemma filled_nth (h w : Z) (d : Image) (r : nat) :
  filled h w d -> (r < Z.to_nat h)%nat ->
  List.length (nth r d []) = Z.to_nat w.
Proof.
  intros (Hl & Hr) Hlt. apply Hr. apply nth_In. lia.
Qed.

(** Two arrays of one shape with the same pixels are the same. *)
Lemma filled_ext (h w : Z) (d1 d2 : Image) :
  filled h w d1 -> filled h w d2 ->
  (forall r c, 0 <= r < h -> 0 <= c < w ->
               pixel_at d1 r c = pixel_at d2 r c) ->
  d1 = d2.
Proof.
  intros F1 F2 H.
  apply (nth_ext d1 d2 [] []); [destruct F1, F2; congruence|].
  intros r Hr. destruct F1 as (L1 & R1). rewrite L1 in Hr.
  apply (nth_ext _ _ [] []).
  - rewrite (filled_nth h w d1 r), (filled_nth h w d2 r);
      [reflexivity|assumption|lia|split; assumption|lia].
  - intros c Hc.
    rewrite (filled_nth h w d1 r) in Hc; [|split; assumption|lia].
    specialize (H (Z.of_nat r) (Z.of_nat c) ltac:(lia) ltac:(lia)).
    unfold pixel_at in H. rewrite !Nat2Z.id in H. exact H.
Qed.

(* ------------------------------------------------------------------ *)
(** ** Regridding: the samples written *)

Lemma nth_map_default {A B} (f : A -> B) (l : list A) (k : nat) (da : A) (db : B) :
  (k < List.length l)%nat -> nth k (map f l) db = f (nth k l da).
Proof.
  intros H. rewrite (nth_indep _ db (f da)) by (rewrite length_map; exact H).
  apply map_nth.
Qed.

Lemma nd_set_get_data (jp tf : ndarray)
  (H W H' W' s a b c d a' b' c' d' : Z) :
  nd_shape jp = (H, W, s) -> filled H W (nd_data jp) ->
  nd_shape tf = (H', W', s) -> filled H' W' (nd_data tf) ->
  0 <= a <= b -> b <= H -> 0 <= c <= d -> d <= W ->
  0 <= a' <= b' -> b' <= H' -> 0 <= c' <= d' -> d' <= W' ->
  b - a = b' - a' -> d - c = d' - c' ->
  exists jp',
    nd_set jp (a, b) (c, d) (nd_get tf (a', b') (c', d')) = Ok jp'
    /\ nd_shape jp' = (H, W, s)
    /\ filled H W (nd_data jp')
    /\ forall i j, 0 <= i < H -> 0 <= j < W ->
         pixel_at (nd_data jp') i j
         = if (a <=? i) && (i <? b) && (c <=? j) && (j <? d)
           then pixel_at (nd_data tf) (i - a + a') (j - c + c')
           else pixel_at (nd_data jp) i j.
Proof.
  intros Sj Fj St Ft Ha Hb Hc Hd Ha' Hb' Hc' Hd' Er Ec.
  set (lr := b - a). set (lc := d - c).
  set (vdata := map (cut c' lc) (cut a' lr (nd_data tf))).
  set (old := cut a lr (nd_data jp)).
  set (new := map (fun p => splice c (fst p) (snd p)) (combine vdata old)).
  exists {| nd_shape := nd_shape jp; nd_data := splice a new (nd_data jp) |}.
  destruct Fj as (Lj & Rj). destruct Ft as (Lt & Rt).
  assert (Lcut : List.length (cut a' lr (nd_data tf)) = Z.to_nat lr)
    by (apply length_cut; unfold lr; lia).
  assert (Lv : List.length vdata = Z.to_nat lr)
    by (unfold vdata; rewrite length_map; exact Lcut).
  assert (Lo : List.length old = Z.to_nat lr)
    by (apply length_cut; unfold lr; lia).
  assert (Ln : List.length new = Z.to_nat lr)
    by (unfold new; rewrite length_map, length_combine; lia).
  (* the rows of the value and of the target *)
  assert (Nv : forall k, (k < Z.to_nat lr)%nat ->
             nth k vdata [] = cut c' lc (nth (Z.to_nat a' + k) (nd_data tf) [])).
  { intros k Hk. unfold vdata.
    rewrite (nth_map_default _ _ _ [] []) by lia.
    rewrite nth_cut. rewrite (proj2 (Nat.ltb_lt _ _)) by lia. reflexivity. }
  assert (No : forall k, (k < Z.to_nat lr)%nat ->
             nth k old [] = nth (Z.to_nat a + k) (nd_data jp) []).
  { intros k Hk. unfold old. rewrite nth_cut.
    rewrite (proj2 (Nat.ltb_lt _ _)) by lia. reflexivity. }
  assert (Nn : forall k, (k < Z.to_nat lr)%nat ->
             nth k new [] = splice c (nth k vdata []) (nth k old [])).
  { intros k Hk. unfold new.
    rewrite (nth_map_default _ _ _ ([], []) []) by (rewrite length_combine; lia).
    rewrite combine_nth by lia. reflexivity. }
  assert (Lvr : forall k, (k < Z.to_nat lr)%nat ->
             List.length (nth k vdata []) = Z.to_nat lc).
  { intros k Hk. rewrite Nv by assumption. apply length_cut.
    rewrite (Rt (nth (Z.to_nat a' + k) (nd_data tf) []))
      by (apply nth_In; unfold lr in *; lia).
    unfold lc. lia. }
  assert (Lor : forall k, (k < Z.to_nat lr)%nat ->
             List.length (nth k old []) = Z.to_nat W).
  { intros k Hk. rewrite No by assumption. apply Rj. apply nth_In.
    unfold lr in *. lia. }
  assert (Lnr : forall k, (k < Z.to_nat lr)%nat ->
             List.length (nth k new []) = Z.to_nat W).
  { intros k Hk. rewrite Nn by assumption. rewrite length_splice.
    - apply Lor; assumption.
    - rewrite Lvr, Lor by assumption. unfold lc. lia. }
  split; [|split; [exact Sj|split]].
  - unfold nd_set, nd_get. rewrite Sj, St. cbn [nd_shape nd_data].
    rewrite !slice_len_inside, !slice_start_inside by lia.
    unfold broadcastable. rewrite <- Er, <- Ec, !Z.eqb_refl. cbn [orb andb].
    rewrite !stretch_same.
    rewrite (map_ext _ (fun r => r)), map_id.
    + reflexivity.
    + intros r. rewrite stretch_same.
      rewrite (map_ext _ (fun p => p)), map_id; [reflexivity|].
      intros p. apply stretch_same.
  - cbn [nd_data]. split.
    + rewrite length_splice by (rewrite Ln; unfold lr; lia). exact Lj.
    + intros row Hin. apply (In_nth _ _ []) in Hin.
      destruct Hin as (k & Hk & <-).
      rewrite length_splice in Hk by (rewrite Ln; unfold lr; lia).
      rewrite nth_splice by (rewrite Ln; unfold lr; lia). rewrite Ln.
      destruct ((Z.to_nat a <=? k)%nat && (k <? Z.to_nat a + Z.to_nat lr)%nat)
        eqn:Ek.
      * apply andb_true_iff in Ek. destruct Ek as (E1 & E2).
        apply Nat.leb_le in E1. apply Nat.ltb_lt in E2.
        apply Lnr. lia.
      * apply Rj. apply nth_In. lia.
  - intros i j Hi Hj. cbn [nd_data]. unfold pixel_at.
    rewrite nth_splice by (rewrite Ln; unfold lr; lia). rewrite Ln.
    destruct (Z.leb_spec a i) as [A1|A1]; cbn [andb].
    2:{ rewrite (proj2 (Nat.leb_gt _ _)) by lia. reflexivity. }
    destruct (Z.ltb_spec i b) as [A2|A2]; cbn [andb].
    2:{ rewrite (proj2 (Nat.leb_le _ _)) by lia.
        rewrite (proj2 (Nat.ltb_ge _ _)) by (unfold lr; lia). reflexivity. }
    rewrite (proj2 (Nat.leb_le _ _)) by lia.
    rewrite (proj2 (Nat.ltb_lt _ _)) by (unfold lr; lia). cbn [andb].
    assert (Hk : (Z.to_nat i - Z.to_nat a < Z.to_nat lr)%nat) by (unfold lr; lia).
    rewrite Nn by assumption.
    rewrite nth_splice by (rewrite Lvr, Lor by assumption; unfold lc; lia).
    rewrite Lvr by assumption.
    rewrite No by assumption.
    replace (Z.to_nat a + (Z.to_nat i - Z.to_nat a))%nat with (Z.to_nat i) by lia.
    destruct (Z.leb_spec c j) as [C1|C1]; cbn [andb].
    2:{ rewrite (proj2 (Nat.leb_gt _ _)) by lia. reflexivity. }
    destruct (Z.ltb_spec j d) as [C2|C2].
    2:{ rewrite (proj2 (Nat.leb_le _ _)) by lia.
        rewrite (proj2 (Nat.ltb_ge _ _)) by (unfold lc; lia). reflexivity. }
    rewrite (proj2 (Nat.leb_le _ _)) by lia.
    rewrite (proj2 (Nat.ltb_lt _ _)) by (unfold lc; lia). cbn [andb].
    rewrite Nv by assumption. rewrite nth_cut.
    rewrite (proj2 (Nat.ltb_lt _ _)) by (unfold lc; lia).
    f_equal; [lia|]. f_equal. lia.
Qed.

Lemma In_cut {A} (s n : Z) (l : list A) (x : A) : In x (cut s n l) -> In x l.
Proof.
  unfold cut. intros H.
  apply (In_nth _ _ x) in H. destruct H as (k & Hk & <-).
  rewrite length_firstn, length_skipn in Hk.
  rewrite nth_firstn, nth_skipn.
  rewrite (proj2 (Nat.ltb_lt _ _)) by lia. apply nth_In. lia.
Qed.

(** The tile of an image at row [R] and column [C] of a grid: a block of
    the image, pixel for pixel. *)
Lemma tile_of_image_pixels (img : Image) (h w th tw nc n R C : Z) :
  filled h w img -> 0 < th -> 0 < tw ->
  n / nc = R -> n mod nc = C -> 0 <= R -> 0 <= C ->
  R * th + th <= h -> C * tw + tw <= w ->
  filled th tw (tile_of_image img th tw nc n)
  /\ forall i j, 0 <= i < th -> 0 <= j < tw ->
       pixel_at (tile_of_image img th tw nc n) i j
       = pixel_at img (R * th + i) (C * tw + j).
Proof.
  intros (Li & Ri) Hth Htw ER EC HR HC Bh Bw.
  unfold tile_of_image. rewrite ER, EC.
  assert (Lc : List.length (cut (R * th) th img) = Z.to_nat th)
    by (apply length_cut; nia).
  split; [split|].
  - rewrite length_map. exact Lc.
  - intros row Hin. apply in_map_iff in Hin. destruct Hin as (r0 & <- & Hr0).
    apply length_cut. rewrite (Ri r0) by (exact (In_cut _ _ _ _ Hr0)). nia.
  - intros i j Hi Hj. unfold pixel_at.
    rewrite (nth_map_default _ _ _ [] []) by lia.
    rewrite !nth_cut.
    rewrite !(proj2 (Nat.ltb_lt _ _)) by lia.
    f_equal; [nia|]. f_equal. nia.
Qed.



(** A loop whose body always succeeds and moves an invariant along the
    items already gone through. *)
Lemma for_each_steps {B S} (J : list B -> S -> Prop) (evs : B -> list Event)
  (body : B -> S -> Run S) (l : list B) :
  (forall pre b post s tr,
      l = pre ++ b :: post -> J pre s ->
      exists s', body b s tr = (tr ++ evs b, Ok s') /\ J (pre ++ [b]) s') ->
  forall s tr, J [] s ->
               exists s', for_each l body s tr = (tr ++ flat_map evs l, Ok s')
                          /\ J l s'.
Proof.
  intros Hb.
  assert (G : forall suf pre, l = pre ++ suf ->
              forall s tr, J pre s ->
                exists s', for_each suf body s tr
                           = (tr ++ flat_map evs suf, Ok s') /\ J l s').
  { induction suf as [|b suf IH]; intros pre El s tr Hs.
    - rewrite app_nil_r in El. subst pre. exists s. cbn.
      rewrite app_nil_r. split; [reflexivity|assumption].
    - destruct (Hb pre b suf s tr El Hs) as (s1 & E1 & H1).
      destruct (IH (pre ++ [b]) ltac:(rewrite <- app_assoc; exact El)
                  s1 (tr ++ evs b) H1) as (s2 & E2 & H2).
      exists s2. split; [|assumption].
      cbn [for_each flat_map]. unfold bind. rewrite E1, E2, <- app_assoc.
      reflexivity. }
  intros s tr Hs. exact (G l [] eq_refl s tr Hs).
Qed.

Lemma covered_sections_in (fp : Tiff) (jth jtw idx r c : Z) :
  let g := geometry_of fp in
  covered (sections fp jth jtw idx) r c = true ->
  exists y x,
    In y (range_items (scan_rows g jth (julr_of g jth jtw idx)))
    /\ In x (range_items (scan_cols g jtw (julc_of g jth jtw idx)))
    /\ in_section fp jth jtw idx y x r c.
Proof.
  intros g H. unfold covered in H. apply existsb_exists in H.
  destruct H as (f & Hf & Ht). unfold sections in Hf. fold g in Hf.
  apply in_flat_map in Hf. destruct Hf as (y & Hy & Hf).
  apply in_flat_map in Hf. destruct Hf as (x & Hx & Hf).
  exists y, x. split; [assumption|]. split; [assumption|].
  unfold in_section. fold g.
  destruct (fit_tile g jth jtw (imagewidth g / tw g) (julr_of g jth jtw idx)
              (julc_of g jth jtw idx) (tile_index fp x y)) as [f'|];
    [|contradiction].
  destruct Hf as [<- | []]. unfold covered. cbn [existsb].
  rewrite Ht. reflexivity.
Qed.

Lemma tile_row_inside (v t h : Z) :
  0 < t -> (t | h) -> 0 <= v < h -> 0 <= v / t /\ v / t * t + t <= h.
Proof.
  intros Ht [k ->] Hv.
  assert (v / t < k) by (apply Z.div_lt_upper_bound; lia).
  assert (0 <= v / t) by (apply Z.div_pos; lia).
  split; [assumption|nia].
Qed.

Lemma copy_tile_data (fp : Tiff) (img : Image) (jth jtw idx y x : Z)
  (bufs : ndarray * ndarray) (tr : list Event) :
  let g := geometry_of fp in
  regrid_ready g jth jtw ->
  source_holds fp img ->
  scanned g jth jtw idx y x ->
  buffers_shaped g jth jtw bufs ->
  filled jth jtw (nd_data (fst bufs)) ->
  exists bufs',
    copy_tile fp g jth jtw (imagewidth g / tw g) (julr_of g jth jtw idx)
      (julc_of g jth jtw idx) y x bufs tr
    = (tr ++ copy_events fp y x, Ok bufs')
    /\ buffers_shaped g jth jtw bufs'
    /\ filled jth jtw (nd_data (fst bufs'))
    /\ forall r c,
         julr_of g jth jtw idx <= r < julr_of g jth jtw idx + jth ->
         julc_of g jth jtw idx <= c < julc_of g jth jtw idx + jtw ->
         (in_section fp jth jtw idx y x r c ->
          pixel_at (nd_data (fst bufs')) (r - julr_of g jth jtw idx)
            (c - julc_of g jth jtw idx) = pixel_at img r c)
         /\ (~ in_section fp jth jtw idx y x r c ->
             pixel_at (nd_data (fst bufs')) (r - julr_of g jth jtw idx)
               (c - julc_of g jth jtw idx)
             = pixel_at (nd_data (fst bufs)) (r - julr_of g jth jtw idx)
                 (c - julc_of g jth jtw idx)).
Proof.
  intros g Hr (Fi & Hsrc) Hs Hb Fj. destruct bufs as [jp tf].
  cbn [fst snd] in *.
  set (julr := julr_of g jth jtw idx) in *.
  set (julc := julc_of g jth jtw idx) in *.
  set (tilenum := tile_index fp x y).
  set (tf' := {| nd_shape := nd_shape tf; nd_data := encoded_tile fp tilenum |}).
  destruct (fit_tile_scanned fp jth jtw idx y x Hr Hs) as (E & Br & Bc).
  fold g julr julc tilenum in E, Br, Bc. cbv zeta in E, Br, Bc.
  pose proof (scanned_bounds g jth jtw idx y x Hr Hs) as B.
  fold julr julc in B. cbv zeta in B.
  destruct B as (B1 & B2 & B3 & B4 & By & Bx & _ & _).
  pose proof Hr as (Hw & Hh & Htw & Hth & Hjth & Hjtw & Dw & Dh & Djh & Djw).
  assert (Rx : 0 <= x < imagewidth g) by lia.
  assert (Ry : 0 <= y < imageheight g) by lia.
  destruct (tile_index_split fp x y Htw Dw Rx) as (Qr & Qc).
  destruct (tile_origin_of_index fp x y Htw Dw Rx) as (Tr & Tc).
  fold g tilenum in Qr, Qc, Tr, Tc.
  set (tulr := tulr_of g tilenum) in *. set (tulc := tulc_of g tilenum) in *.
  destruct (tile_row_inside y (th g) (imageheight g) Hth Dh Ry) as (Py & Iy).
  destruct (tile_row_inside x (tw g) (imagewidth g) Htw Dw Rx) as (Px & Ix).
  destruct (tile_of_image_pixels img (imageheight g) (imagewidth g) (th g) (tw g)
              (imagewidth g / tw g) tilenum (y / th g) (x / tw g)
              Fi Hth Htw Qr Qc Py Px Iy Ix) as (Ft & Pt).
  destruct Hb as (Sj & St). cbn [fst snd] in Sj, St.
  assert (Dt : nd_data tf' = tile_of_image img (th g) (tw g)
                               (imagewidth g / tw g) tilenum)
    by (unfold tf'; cbn [nd_data]; apply Hsrc).
  rewrite <- Dt in Ft, Pt.
  set (u := Z.max julr tulr) in *.
  set (l := Z.min (julr + jth) (tulr + th g)) in *.
  set (uc := Z.max julc tulc) in *.
  set (rc := Z.min (julc + jtw) (tulc + tw g)) in *.
  destruct (nd_set_get_data jp tf' jth jtw (th g) (tw g) (spp g)
              (u - julr) (l - julr) (uc - julc) (rc - julc)
              (u - tulr) (l - tulr) (uc - tulc) (rc - tulc))
    as (jp' & Eset & Sjp' & Fjp' & Pjp'); try assumption; try lia.
  exists (jp', tf'). cbn [fst snd].
  split; [|split; [split; assumption|split; [assumption|]]].
  - unfold copy_tile, computeTile, readEncodedTile.
    unfold bind at 1. unfold bind at 1. unfold emit at 1, ret at 1.
    unfold bind at 1. unfold bind at 1. unfold emit at 1, ret at 1.
    fold tilenum. fold tf'. unfold bind at 1. unfold lift at 1. rewrite E.
    unfold bind at 1. unfold try_except_ValueError, lift.
    cbn [j2k_rows j2k_cols tiff_rows tiff_cols]. rewrite Eset.
    unfold ret, copy_events. rewrite <- app_assoc. reflexivity.
  - intros r c Hrr Hcc.
    specialize (Pjp' (r - julr) (c - julc) ltac:(lia) ltac:(lia)).
    unfold in_section. fold g julr julc tilenum. rewrite E.
    unfold covered. cbn [existsb ulr llr ulc urc]. rewrite orb_false_r.
    replace ((u - julr <=? r - julr) && (r - julr <? l - julr)
             && (uc - julc <=? c - julc) && (c - julc <? rc - julc))
      with ((u <=? r) && (r <? l) && (uc <=? c) && (c <? rc)) in Pjp'.
    2:{ f_equal; [f_equal; [f_equal|]|].
        - destruct (Z.leb_spec u r), (Z.leb_spec (u - julr) (r - julr));
            try reflexivity; lia.
        - destruct (Z.ltb_spec r l), (Z.ltb_spec (r - julr) (l - julr));
            try reflexivity; lia.
        - destruct (Z.leb_spec uc c), (Z.leb_spec (uc - julc) (c - julc));
            try reflexivity; lia.
        - destruct (Z.ltb_spec c rc), (Z.ltb_spec (c - julc) (rc - julc));
            try reflexivity; lia. }
    destruct ((u <=? r) && (r <? l) && (uc <=? c) && (c <? rc)) eqn:Et.
    + split; [intros _|intros N; exfalso; apply N; reflexivity].
      rewrite Pjp'.
      rewrite !andb_true_iff, !Z.leb_le, !Z.ltb_lt in Et.
      rewrite Pt by lia. f_equal; lia.
    + split; [discriminate|intros _; exact Pjp'].
Qed.

Lemma in_section_dec (fp : Tiff) (jth jtw idx y x r c : Z) :
  {in_section fp jth jtw idx y x r c} + {~ in_section fp jth jtw idx y x r c}.
Proof.
  unfold in_section.
  destruct (fit_tile _ _ _ _ _ _ _) as [f|]; [|right; tauto].
  destruct (covered [f] r c); [left; reflexivity|right; discriminate].
Qed.

Lemma copied_so_far_weaken (fp : Tiff) (img : Image) (jth jtw idx : Z)
  (P Q : Z -> Z -> Prop) (bufs : ndarray * ndarray) :
  (forall y x, Q y x -> P y x) ->
  copied_so_far fp img jth jtw idx P bufs ->
  copied_so_far fp img jth jtw idx Q bufs.
Proof.
  intros HPQ (Hs & Hf & Hp). split; [assumption|]. split; [assumption|].
  intros y x r c Hq. apply Hp. apply HPQ. exact Hq.
Qed.

(** One more position processed. *)
Lemma copied_so_far_step (fp : Tiff) (img : Image) (jth jtw idx y x : Z)
  (P : Z -> Z -> Prop) (bufs : ndarray * ndarray) (tr : list Event) :
  let g := geometry_of fp in
  regrid_ready g jth jtw ->
  source_holds fp img ->
  scanned g jth jtw idx y x ->
  copied_so_far fp img jth jtw idx P bufs ->
  exists bufs',
    copy_tile fp g jth jtw (imagewidth g / tw g) (julr_of g jth jtw idx)
      (julc_of g jth jtw idx) y x bufs tr
    = (tr ++ copy_events fp y x, Ok bufs')
    /\ copied_so_far fp img jth jtw idx
         (fun y0 x0 => P y0 x0 \/ (y0 = y /\ x0 = x)) bufs'.
Proof.
  intros g Hr Hsrc Hs (Hb & Hf & Hp).
  destruct (copy_tile_data fp img jth jtw idx y x bufs tr Hr Hsrc Hs Hb Hf)
    as (bufs' & E & Hb' & Hf' & Hp').
  exists bufs'. split; [exact E|]. split; [assumption|]. split; [assumption|].
  intros y0 x0 r c Hq Hin Hrr Hcc.
  destruct (Hp' r c Hrr Hcc) as (A & B).
  destruct (in_section_dec fp jth jtw idx y x r c) as [I|N].
  - exact (A I).
  - rewrite (B N). destruct Hq as [Hq | [-> ->]]; [|contradiction].
    exact (Hp y0 x0 r c Hq Hin Hrr Hcc).
Qed.

Lemma in_split_item {A} (l pre post : list A) (b : A) :
  l = pre ++ b :: post -> In b l.
Proof. intros ->. apply in_or_app. right. left. reflexivity. Qed.

(** Filling one JP2K tile when the tile sizes are aligned: the buffer
    written is the block of the image the tile stands for. *)
Lemma fill_tile_data (fp : Tiff) (img : Image) (jth jtw idx : Z)
  (bufs : ndarray * ndarray) (tr : list Event) :
  let g := geometry_of fp in
  regrid_ready g jth jtw ->
  aligned (th g) jth -> aligned (tw g) jtw ->
  source_holds fp img ->
  In idx (get_tilewriters ((imageheight g, imagewidth g, spp g), (jth, jtw))) ->
  buffers_shaped g jth jtw bufs ->
  filled jth jtw (nd_data (fst bufs)) ->
  exists bufs',
    fill_tile fp g jth jtw (imagewidth g / jtw) (imagewidth g / tw g) idx bufs tr
    = (tr ++ fill_events fp jth jtw idx ++ [EvTileWrite idx (fst bufs')], Ok bufs')
    /\ buffers_shaped g jth jtw bufs'
    /\ filled jth jtw (nd_data (fst bufs'))
    /\ nd_data (fst bufs')
       = tile_of_image img jth jtw (imagewidth g / jtw) idx.
Proof.
  intros g Hr Ah Aw Hsrc Hidx Hb Hf.
  pose proof Hr as (Hw & Hh & Htw & Hth & Hjth & Hjtw & Dw & Dh & Djh & Djw).
  pose proof (divide_div_pos _ _ Hw Hjtw Djw) as Hnc.
  destruct (py_range_ok (julr_of g jth jtw idx)
              (Z.min (julr_of g jth jtw idx + jth) (imageheight g)) (th g) Hth)
    as (ys & Eys).
  destruct (py_range_ok (julc_of g jth jtw idx)
              (Z.min (julc_of g jth jtw idx + jtw) (imagewidth g)) (tw g) Htw)
    as (xs & Exs).
  fold (scan_rows g jth (julr_of g jth jtw idx)) in Eys.
  fold (scan_cols g jtw (julc_of g jth jtw idx)) in Exs.
  assert (Sc : forall y x, In y ys -> In x xs -> scanned g jth jtw idx y x).
  { intros y x Hy Hx. split; [assumption|]. split; eexists; split; eassumption. }
  destruct (for_each_steps
              (fun pre s => copied_so_far fp img jth jtw idx
                              (fun y0 x0 => In y0 pre /\ In x0 xs) s)
              (fun y => flat_map (copy_events fp y) xs)
              (fun y bufs =>
                 bind (lift (scan_cols g jtw (julc_of g jth jtw idx)))
                   (fun xs =>
                      for_each xs
                        (copy_tile fp g jth jtw (imagewidth g / tw g)
                           (julr_of g jth jtw idx) (julc_of g jth jtw idx) y)
                        bufs))
              ys) with (s := bufs) (tr := tr) as (bufs' & E & Hfin).
  - intros pre y post s t El Hs.
    pose proof (in_split_item _ _ _ _ El) as Hy.
    unfold bind, lift. rewrite Exs.
    destruct (for_each_steps
                (fun prex s0 => copied_so_far fp img jth jtw idx
                                  (fun y0 x0 => (In y0 pre /\ In x0 xs)
                                                \/ (y0 = y /\ In x0 prex)) s0)
                (copy_events fp y)
                (copy_tile fp g jth jtw (imagewidth g / tw g)
                   (julr_of g jth jtw idx) (julc_of g jth jtw idx) y)
                xs) with (s := s) (tr := t) as (s' & E' & Hfin').
    + intros prex x postx s0 t0 Elx Hs0.
      pose proof (in_split_item _ _ _ _ Elx) as Hx.
      destruct (copied_so_far_step fp img jth jtw idx y x _ s0 t0 Hr Hsrc
                  (Sc y x Hy Hx) Hs0) as (s1 & E1 & H1).
      exists s1. split; [exact E1|].
      revert H1. apply copied_so_far_weaken.
      intros y0 x0 [H|[-> H]]; [left; left; exact H|].
      apply in_app_or in H. destruct H as [H|[<-|[]]].
      * left. right. split; [reflexivity|assumption].
      * right. split; reflexivity.
    + revert Hs. apply copied_so_far_weaken.
      intros y0 x0 [H|[_ []]]. exact H.
    + exists s'. split; [exact E'|].
      revert Hfin'. apply copied_so_far_weaken.
      intros y0 x0 [H Hx0]. apply in_app_or in H.
      destruct H as [H|[<-|[]]]; [left; split; assumption|].
      right. split; [reflexivity|assumption].
  - split; [assumption|]. split; [assumption|].
    intros y x r c [[] _].
  - destruct Hfin as (Hb' & Hf' & Hp').
    exists bufs'. split; [|split; [assumption|split; [assumption|]]].
    + unfold fill_tile, py_floordiv, py_mod.
      rewrite (proj2 (Z.eqb_neq (imagewidth g / jtw) 0)) by lia.
      unfold bind at 1. unfold lift at 1. unfold bind at 1. unfold lift at 1.
      fold (julr_of g jth jtw idx). fold (julc_of g jth jtw idx).
      unfold bind at 1. unfold lift at 1. rewrite Eys.
      unfold bind at 1. rewrite E.
      unfold tilewriter_set, bind, emit, ret, fill_events.
      fold g. rewrite Eys, Exs. cbn [range_items].
      rewrite <- app_assoc. reflexivity.
    + destruct (jp2k_tile_bounds g jth jtw idx Hr Hidx) as (B1 & B2 & B3 & B4).
      assert (Hi0 : 0 <= idx).
      { unfold get_tilewriters in Hidx. apply indices_in in Hidx. lia. }
      pose proof (Z.mod_pos_bound idx (imagewidth g / jtw) Hnc) as Hc.
      assert (HR : 0 <= idx / (imagewidth g / jtw)) by (apply Z.div_pos; lia).
      destruct Hsrc as (Fi & _).
      destruct (tile_of_image_pixels img (imageheight g) (imagewidth g) jth jtw
                  (imagewidth g / jtw) idx (idx / (imagewidth g / jtw))
                  (idx mod (imagewidth g / jtw)) Fi Hjth Hjtw eq_refl eq_refl
                  HR (proj1 Hc) B2 B4) as (Fb & Pb).
      apply (filled_ext jth jtw); [assumption|assumption|].
      intros i j Hi Hj. rewrite Pb by assumption.
      fold (julr_of g jth jtw idx). fold (julc_of g jth jtw idx).
      set (julr := julr_of g jth jtw idx) in *.
      set (julc := julc_of g jth jtw idx) in *.
      pose proof (sections_cover_aligned fp jth jtw idx (julr + i) (julc + j)
                    Hr Ah Aw Hidx) as Cov.
      fold g julr julc in Cov. specialize (Cov ltac:(lia) ltac:(lia)).
      apply covered_sections_in in Cov. fold g julr julc in Cov.
      destruct Cov as (y & x & Hy & Hx & Hin).
      rewrite Eys in Hy. rewrite Exs in Hx. cbn [range_items] in Hy, Hx.
      assert (R1 : julr <= julr + i < julr + jth) by lia.
      assert (R2 : julc <= julc + j < julc + jtw) by lia.
      specialize (Hp' y x (julr + i) (julc + j) (conj Hy Hx) Hin R1 R2).
      fold g julr julc in Hp'.
      replace (julr + i - julr) with i in Hp' by lia.
      replace (julc + j - julc) with j in Hp' by lia.
      exact Hp'.
Qed.

Lemma np_zeros_filled (h w s : Z) :
  0 <= h -> 0 <= w -> 0 <= s ->
  exists d, np_zeros (h, w, s) = Ok {| nd_shape := (h, w, s); nd_data := d |}
            /\ filled h w d.
Proof.
  intros Hh Hw Hs. unfold np_zeros.
  rewrite (proj2 (Z.ltb_ge h 0)), (proj2 (Z.ltb_ge w 0)),
    (proj2 (Z.ltb_ge s 0)) by lia.
  eexists. split; [reflexivity|]. split.
  - apply repeat_length.
  - intros row Hin. apply repeat_spec in Hin. subst row. apply repeat_length.
Qed.

(** The regridding loop when the tile sizes are aligned: every tile written
    is the block of the image it stands for. *)
Lemma regrid_data (fp : Tiff) (img : Image) (jth jtw : Z) (tr : list Event) :
  let g := geometry_of fp in
  regrid_ready g jth jtw -> 0 <= spp g ->
  aligned (th g) jth -> aligned (tw g) jtw ->
  source_holds fp img ->
  tiles_written tr = [] ->
  exists tr', regrid fp g (jth, jtw) tr = (tr', Ok tt)
              /\ forall idx tile,
                   In (idx, tile) (tiles_written tr') ->
                   nd_data tile
                   = tile_of_image img jth jtw (imagewidth g / jtw) idx.
Proof.
  intros g Hr Hspp Ah Aw Hsrc Htr.
  pose proof Hr as (Hw & Hh & Htw & Hth & Hjth & Hjtw & Dw & Dh & Djh & Djw).
  destruct (np_zeros_ok (th g) (tw g) (spp g)) as (d1 & E1); try lia.
  destruct (np_zeros_filled jth jtw (spp g)) as (d2 & E2 & F2); try lia.
  unfold regrid, py_floordiv.
  rewrite (proj2 (Z.eqb_neq jth 0)), (proj2 (Z.eqb_neq jtw 0)),
    (proj2 (Z.eqb_neq (th g) 0)), (proj2 (Z.eqb_neq (tw g) 0)) by lia.
  rewrite E1, E2.
  unfold bind at 1. unfold lift at 1.
  unfold bind at 1. unfold Jp2k_tiled, bind at 1, emit at 1, ret at 1.
  do 6 (unfold bind at 1; unfold lift at 1).
  unfold bind at 1.
  destruct (for_each_invariant
              (fun s t =>
                 buffers_shaped g jth jtw s
                 /\ filled jth jtw (nd_data (fst s))
                 /\ forall idx tile,
                      In (idx, tile) (tiles_written t) ->
                      nd_data tile
                      = tile_of_image img jth jtw (imagewidth g / jtw) idx)
              (fill_tile fp g jth jtw (imagewidth g / jtw) (imagewidth g / tw g))
              (get_tilewriters ((imageheight g, imagewidth g, spp g), (jth, jtw))))
    with (s := ({| nd_shape := (jth, jtw, spp g); nd_data := d2 |},
                {| nd_shape := (th g, tw g, spp g); nd_data := d1 |}))
         (tr := tr ++ [EvJp2kTiled (imageheight g, imagewidth g, spp g) (jth, jtw)])
    as (s' & tr' & E & _ & _ & Hw').
  - intros idx s t Hidx (Hs & Hf & Ht).
    destruct (fill_tile_data fp img jth jtw idx s t Hr Ah Aw Hsrc Hidx Hs Hf)
      as (s1 & Es & Hs1 & Hf1 & Hd1).
    fold g in Es, Hd1. do 2 eexists. split; [exact Es|].
    split; [assumption|]. split; [assumption|].
    intros i tl Hin. rewrite !tiles_written_app in Hin.
    apply in_app_or in Hin. destruct Hin as [Hin|Hin]; [exact (Ht i tl Hin)|].
    apply in_app_or in Hin. destruct Hin as [Hin|Hin].
    + exfalso. revert Hin. clear. unfold fill_events.
      induction (range_items (scan_rows (geometry_of fp) jth
                                (julr_of (geometry_of fp) jth jtw idx)))
        as [|y ys IHy]; [intros []|].
      cbn [flat_map]. rewrite tiles_written_app. intros Hin.
      apply in_app_or in Hin. destruct Hin as [Hin|Hin]; [|exact (IHy Hin)].
      clear IHy. revert Hin.
      induction (range_items (scan_cols (geometry_of fp) jtw
                                (julc_of (geometry_of fp) jth jtw idx)))
        as [|x xs IHx]; [intros []|].
      cbn. exact IHx.
    + cbn in Hin. destruct Hin as [Hin|[]]. inversion Hin; subst. exact Hd1.
  - split; [split; reflexivity|]. split; [exact F2|].
    intros i tl Hin. rewrite tiles_written_app, Htr in Hin. cbn in Hin.
    contradiction.
  - exists tr'. unfold ret at 1. rewrite E. split; [reflexivity|exact Hw'].
Qed.

Lemma tiles_written_prelude :
  tiles_written (([] ++ [EvIsTiled]) ++ geometry_events) = [].
Proof. reflexivity. Qed.

(** An array that fills its shape is the table of its pixels. *)
Lemma filled_table (h w : Z) (d : Image) :
  filled h w d ->
  d = map (fun r => map (fun c => pixel_at d r c) (indices w)) (indices h).
Proof.
  intros (Ld & Rd).
  apply (nth_ext _ _ [] []).
  - unfold indices. rewrite !length_map, length_seq. exact Ld.
  - intros r Hr. rewrite Ld in Hr.
    unfold indices at 2.
    rewrite (nth_map_default _ _ _ 0 []) by (rewrite length_map, length_seq; lia).
    rewrite (nth_map_default _ _ _ 0%nat 0) by (rewrite length_seq; lia).
    rewrite seq_nth by lia. cbn [Nat.add].
    apply (nth_ext _ _ [] []).
    + unfold indices. rewrite !length_map, length_seq.
      apply Rd. apply nth_In. lia.
    + intros c Hc. rewrite (Rd (nth r d [])) in Hc by (apply nth_In; lia).
      unfold indices.
      rewrite (nth_map_default _ _ _ 0 []) by (rewrite length_map, length_seq; lia).
      rewrite (nth_map_default _ _ _ 0%nat 0) by (rewrite length_seq; lia).
      rewrite seq_nth by lia. cbn [Nat.add].
      unfold pixel_at. rewrite !Nat2Z.id. reflexivity.
Qed.

Lemma written_indices (tr : list Event) :
  map fst (tiles_written tr)
  = flat_map (fun c => match c with
                       | TileWritten i _ => [i]
                       | _ => []
                       end) (destination_calls tr).
Proof.
  induction tr as [|ev tr IH]; [reflexivity|].
  destruct ev; cbn; rewrite ?IH; reflexivity.
Qed.

Lemma written_indices_regrid (shape : Z * Z * Z) (ts : Z * Z) (tshape : Z * Z * Z)
  (l : list Z) :
  flat_map (fun c => match c with
                     | TileWritten i _ => [i]
                     | _ => []
                     end)
    (TiledCreated shape ts :: map (fun i => TileWritten i tshape) l) = l.
Proof.
  cbn [flat_map app]. induction l as [|i l IH]; [reflexivity|].
  cbn [map flat_map app]. rewrite IH. reflexivity.
Qed.

(** X10: when in either axis one tile size is a multiple of the other, the
    regridding strategy reproduces the image: the destination tiles put
    together in image coordinates are the image the source holds, pixel for
    pixel. *)
Theorem regrid_roundtrip_when_aligned (self : Tiff2Jp2k) (fp : Tiff)
  (jth jtw : Z) (img : Image) :
  regrid_preconditions self fp jth jtw ->
  aligned (TileLength fp) jth -> aligned (TileWidth fp) jtw ->
  source_holds fp img ->
  snd (run self fp []) = Ok tt
  /\ reassemble (ImageLength fp) (ImageWidth fp) jth jtw
       (tiles_written (fst (run self fp []))) = img.
Proof.
  intros Hp Ah Aw Hsrc. pose proof Hp as (Ht & Hts & Hr & _ & _ & Hspp).
  set (g := geometry_of fp) in *.
  rewrite (run_tiled_eq self fp [] Ht). unfold bind.
  rewrite (select_regrid self fp jth jtw _ Hp). rewrite Hts. fold g.
  set (tr0 := ([] ++ [EvIsTiled]) ++ geometry_events).
  destruct (regrid_data fp img jth jtw tr0 Hr Hspp Ah Aw Hsrc tiles_written_prelude)
    as (tr' & E & Hd).
  destruct (regrid_destination_calls fp jth jtw tr0 Hr Hspp) as (evs & E' & O).
  fold g in E, E', O, Hd.
  assert (Et : tr' = tr0 ++ evs) by congruence. subst tr'. clear E'.
  rewrite E. cbn [fst snd]. split; [reflexivity|].
  set (tiles := tiles_written (tr0 ++ evs)) in *.
  pose proof Hr as (Hw & Hh & Htw & Hth & Hjth & Hjtw & Dw & Dh & Djh & Djw).
  assert (Hi : map fst tiles
               = indices (imageheight g / jth * (imagewidth g / jtw))).
  { unfold tiles. rewrite written_indices. unfold destination_calls.
    rewrite flat_map_app. fold (destination_calls evs). rewrite O.
    replace (flat_map destination_call tr0) with (@nil DestinationCall)
      by reflexivity.
    cbn [app]. apply written_indices_regrid. }
  destruct Hsrc as (Fi & _).
  change (ImageLength fp) with (imageheight g) in *.
  change (ImageWidth fp) with (imagewidth g) in *.
  etransitivity; [|symmetry; exact (filled_table _ _ _ Fi)].
  unfold reassemble. apply map_ext_in. intros r Hrr.
  apply map_ext_in. intros c Hcc.
  apply indices_in in Hrr. apply indices_in in Hcc.
  rewrite (ceil_div_exact _ _ Hjtw Djw).
  pose proof (divide_div_mul _ _ Hjtw Djw) as Mw.
  pose proof (divide_div_mul _ _ Hjth Djh) as Mh.
  assert (Cc : 0 <= c / jtw < imagewidth g / jtw).
  { split; [apply Z.div_pos; lia|]. apply Z.div_lt_upper_bound; lia. }
  assert (Cr : 0 <= r / jth < imageheight g / jth).
  { split; [apply Z.div_pos; lia|]. apply Z.div_lt_upper_bound; lia. }
  destruct (grid_index_split (r / jth) (c / jtw) (imagewidth g / jtw) Cc)
    as (Qr & Qc).
  set (idx := r / jth * (imagewidth g / jtw) + c / jtw) in *.
  assert (Hin : In idx (map fst tiles)) by (rewrite Hi; apply indices_in; nia).
  apply in_map_iff in Hin. destruct Hin as (p & Hp1 & Hp2).
  destruct (find (fun p0 => fst p0 =? idx) tiles) as [[i t]|] eqn:Ef.
  - apply find_some in Ef. destruct Ef as (Hin & Heq).
    cbn [fst] in Heq. apply Z.eqb_eq in Heq. subst i.
    rewrite (Hd idx t Hin).
    pose proof (Z.mod_pos_bound r jth Hjth) as Br.
    pose proof (Z.mod_pos_bound c jtw Hjtw) as Bc.
    pose proof (Z.div_mod r jth ltac:(lia)) as Er.
    pose proof (Z.div_mod c jtw ltac:(lia)) as Ec.
    destruct (tile_of_image_pixels img (imageheight g) (imagewidth g) jth jtw
                (imagewidth g / jtw) idx (r / jth) (c / jtw)
                Fi Hjth Hjtw Qr Qc (proj1 Cr) (proj1 Cc)
                ltac:(nia) ltac:(nia)) as (_ & Pb).
    rewrite (Pb _ _ Br Bc). f_equal; lia.
  - exfalso. pose proof (find_none _ _ Ef p Hp2) as Hn. cbn beta in Hn.
    rewrite Hp1, Z.eqb_refl in Hn. discriminate.
Qed.

Lemma written_calls (tr : list Event) :
  map (fun p => TileWritten (fst p) (nd_shape (snd p))) (tiles_written tr)
  = flat_map (fun c => match c with
                       | TileWritten i s => [TileWritten i s]
                       | _ => []
                       end) (destination_calls tr).
Proof.
  induction tr as [|ev tr IH]; [reflexivity|].
  destruct ev; cbn; rewrite ?IH; reflexivity.
Qed.

Lemma written_calls_regrid (shape : Z * Z * Z) (ts : Z * Z) (tshape : Z * Z * Z)
  (l : list Z) :
  flat_map (fun c => match c with
                     | TileWritten i s => [TileWritten i s]
                     | _ => []
                     end)
    (TiledCreated shape ts :: map (fun i => TileWritten i tshape) l)
  = map (fun i => TileWritten i tshape) l.
Proof.
  cbn [flat_map app]. induction l as [|i l IH]; [reflexivity|].
  cbn [map flat_map app]. rewrite IH. reflexivity.
Qed.

(** Tiles known by their indices, their shape and their samples. *)
Lemma tiles_determined (l : list (Z * ndarray)) (ids : list Z)
  (shape : Z * Z * Z) (D : Z -> Image) :
  map (fun p => TileWritten (fst p) (nd_shape (snd p))) l
  = map (fun i => TileWritten i shape) ids ->
  (forall i t, In (i, t) l -> nd_data t = D i) ->
  l = map (fun i => (i, {| nd_shape := shape; nd_data := D i |})) ids.
Proof.
  revert ids. induction l as [|[i t] l IH]; intros [|j ids] E Hd;
    try discriminate; [reflexivity|].
  cbn [map fst snd] in E. injection E as Ei Es El. subst j.
  cbn [map]. f_equal.
  - destruct t as [sh d]. cbn [nd_shape] in Es. subst sh.
    rewrite <- (Hd i _ (or_introl eq_refl)). reflexivity.
  - apply IH; [exact El|]. intros i' t' Hin. apply Hd. right. exact Hin.
Qed.

(** X9: when in either axis one tile size is a multiple of the other, the
    tiles the regridding strategy writes are, in index order, the blocks of
    the image that the destination grid cuts out, each with the requested
    tile shape: no stale sample is left in any of them. *)
Theorem regrid_tiles_written (self : Tiff2Jp2k) (fp : Tiff)
  (jth jtw : Z) (img : Image) :
  regrid_preconditions self fp jth jtw ->
  aligned (TileLength fp) jth -> aligned (TileWidth fp) jtw ->
  source_holds fp img ->
  tiles_written (fst (run self fp []))
  = map (fun i => (i, {| nd_shape := (jth, jtw, SamplesPerPixel fp);
                         nd_data := tile_of_image img jth jtw
                                      (ImageWidth fp / jtw) i |}))
      (indices (ImageLength fp / jth * (ImageWidth fp / jtw))).
Proof.
  intros Hp Ah Aw Hsrc. pose proof Hp as (Ht & Hts & Hr & _ & _ & Hspp).
  set (g := geometry_of fp) in *.
  rewrite (run_tiled_eq self fp [] Ht). unfold bind.
  rewrite (select_regrid self fp jth jtw _ Hp). rewrite Hts. fold g.
  set (tr0 := ([] ++ [EvIsTiled]) ++ geometry_events).
  destruct (regrid_data fp img jth jtw tr0 Hr Hspp Ah Aw Hsrc tiles_written_prelude)
    as (tr' & E & Hd).
  destruct (regrid_destination_calls fp jth jtw tr0 Hr Hspp) as (evs & E' & O).
  fold g in E, E', O, Hd.
  assert (Et : tr' = tr0 ++ evs) by congruence. subst tr'. clear E'.
  rewrite E. cbn [fst].
  apply tiles_determined; [|exact Hd].
  rewrite written_calls. unfold destination_calls.
  rewrite flat_map_app. fold (destination_calls evs). rewrite O.
  replace (flat_map destination_call tr0) with (@nil DestinationCall)
    by reflexivity.
  cbn [app]. apply written_calls_regrid.
Qed.

Lemma numbered_image_filled (h w : Z) : filled h w (numbered_image h w).
Proof.
  unfold numbered_image, filled, indices. split.
  - rewrite !length_map, length_seq. reflexivity.
  - intros row Hin. apply in_map_iff in Hin. destruct Hin as (r & <- & _).
    rewrite !length_map, length_seq. reflexivity.
Defined.

Lemma tiff_of_image_holds (img : Image) (h w spp th tw : Z) :
  filled h w img -> 0 < tw -> (tw | w) ->
  source_holds (tiff_of_image img h w spp th tw) img.
Proof.
  intros Fi Htw Dw. split; [exact Fi|].
  intros n. cbn [encoded_tile tiff_of_image ImageWidth TileWidth TileLength].
  rewrite (ceil_div_exact _ _ Htw Dw). reflexivity.
Defined.

Lemma source_holds_4x4 : source_holds tiff_4x4 (numbered_image 4 4).
Proof.
  apply tiff_of_image_holds.
  - apply numbered_image_filled.
  - lia.
  - exists 2. reflexivity.
Defined.

Lemma regrid_preconditions_4x4 :
  regrid_preconditions {| tilesize := Some (4, 4) |} tiff_4x4 4 4.
Proof.
  unfold regrid_preconditions, regrid_ready. cbn.
  repeat split; try lia; solve_divide.
Defined.

Lemma aligned_2_4 : aligned 2 4.
Proof. left. exists 2. reflexivity. Defined.

Lemma regrid_tiles_written_witness :
  tiles_written (fst (run {| tilesize := Some (4, 4) |} tiff_4x4 []))
  = map (fun i => (i, {| nd_shape := (4, 4, SamplesPerPixel tiff_4x4);
                         nd_data := tile_of_image (numbered_image 4 4) 4 4
                                      (ImageWidth tiff_4x4 / 4) i |}))
      (indices (ImageLength tiff_4x4 / 4 * (ImageWidth tiff_4x4 / 4))).
Proof.
  apply (regrid_tiles_written {| tilesize := Some (4, 4) |} tiff_4x4 4 4
           (numbered_image 4 4)).
  - exact regrid_preconditions_4x4.
  - exact aligned_2_4.
  - exact aligned_2_4.
  - exact source_holds_4x4.
Defined.

Lemma regrid_roundtrip_when_aligned_witness :
  snd (run {| tilesize := Some (4, 4) |} tiff_4x4 []) = Ok tt
  /\ reassemble (ImageLength tiff_4x4) (ImageWidth tiff_4x4) 4 4
       (tiles_written (fst (run {| tilesize := Some (4, 4) |} tiff_4x4 [])))
     = numbered_image 4 4.
Proof.
  apply (regrid_roundtrip_when_aligned {| tilesize := Some (4, 4) |} tiff_4x4
           4 4 (numbered_image 4 4)).
  - exact regrid_preconditions_4x4.
  - exact aligned_2_4.
  - exact aligned_2_4.
  - exact source_holds_4x4.
Defined.

(** X11: asking for the tile size the source already has gives what the
    identity copy gives: the regridding strategy then writes, for
    i = 0, 1, 2, ... in this order, the buffer of source tile i as the reader
    decodes it. *)
Theorem regrid_same_tilesize_forwards_tiles (self : Tiff2Jp2k) (fp : Tiff)
  (img : Image) :
  regrid_preconditions self fp (TileLength fp) (TileWidth fp) ->
  source_holds fp img ->
  tiles_written (fst (run self fp []))
  = map (fun i => (i, source_tile fp i))
      (indices (ImageLength fp / TileLength fp * (ImageWidth fp / TileWidth fp))).
Proof.
  intros Hp Hsrc. pose proof Hp as (Ht & Hts & Hr & _ & _ & Hspp).
  set (g := geometry_of fp) in *.
  assert (Ah : aligned (th g) (TileLength fp)) by (left; apply Z.divide_refl).
  assert (Aw : aligned (tw g) (TileWidth fp)) by (left; apply Z.divide_refl).
  rewrite (run_tiled_eq self fp [] Ht). unfold bind.
  rewrite (select_regrid self fp _ _ _ Hp). rewrite Hts. fold g.
  set (tr0 := ([] ++ [EvIsTiled]) ++ geometry_events).
  destruct (regrid_data fp img _ _ tr0 Hr Hspp Ah Aw Hsrc tiles_written_prelude)
    as (tr' & E & Hd).
  destruct (regrid_destination_calls fp _ _ tr0 Hr Hspp) as (evs & E' & O).
  fold g in E, E', O, Hd.
  assert (Et : tr' = tr0 ++ evs) by congruence. subst tr'. clear E'.
  rewrite E. cbn [fst]. unfold source_tile.
  apply (tiles_determined _ _ _ (encoded_tile fp)).
  - rewrite written_calls. unfold destination_calls.
    rewrite flat_map_app. fold (destination_calls evs). rewrite O.
    replace (flat_map destination_call tr0) with (@nil DestinationCall)
      by reflexivity.
    cbn [app]. apply written_calls_regrid.
  - intros i t Hin. rewrite (Hd i t Hin). symmetry. apply (proj2 Hsrc).
Qed.

Lemma regrid_preconditions_4x4_same :
  regrid_preconditions {| tilesize := Some (2, 2) |} tiff_4x4
    (TileLength tiff_4x4) (TileWidth tiff_4x4).
Proof.
  unfold regrid_preconditions, regrid_ready. cbn.
  repeat split; try lia; solve_divide.
Defined.

Lemma regrid_same_tilesize_forwards_tiles_witness :
  tiles_written (fst (run {| tilesize := Some (2, 2) |} tiff_4x4 []))
  = map (fun i => (i, source_tile tiff_4x4 i))
      (indices (ImageLength tiff_4x4 / TileLength tiff_4x4
                * (ImageWidth tiff_4x4 / TileWidth tiff_4x4))).
Proof.
  apply (regrid_same_tilesize_forwards_tiles {| tilesize := Some (2, 2) |}
           tiff_4x4 (numbered_image 4 4)).
  - exact regrid_preconditions_4x4_same.
  - exact source_holds_4x4.
Defined.
